(** * Highlight-Generator-AI: the temporal segment pipeline

    A shallow embedding of the timing and selection logic of
    [src/highlights_ai]: the window tiler ([chunking.py]), the moment
    parser ([gemini_analysis.py]), the timestamp normalizer, segment
    merger and duration capper ([timestamps.py]) and the per-window loop
    of the orchestrator ([pipeline.py]).

    Modelling conventions.
    - Python [float] seconds are modelled as exact rationals [Q]: the
      comparisons and the additions of the source are the rational ones,
      infinities and NaN are outside the model.  Rounding to binary64
      is monotone, so a comparison between values the code holds
      carries over to the rounded values; a sum or a difference in a
      statement, as in [end == start + chunk_duration], stands for the
      value the source computes for that expression.  Where rounding
      decides a property, the loop is transcribed a second time on
      binary64 floats ([Binary64]) and evaluated there.
    - Python [str] is modelled as [string] (ASCII code points); the
      character classes of [re] and [str.strip] are the ASCII parts of
      the Unicode ones.
    - A Python exception is a value [Raise e] of the [result] type. *)

From Stdlib Require Import PrimFloat.
From Stdlib Require Import QArith Qround Qminmax Lqa ZArith Lia Bool List.
From Stdlib Require Import Ascii String Sorting.Sorted.
From Stdlib Require DecimalFacts DecimalNat DecimalString.
Import ListNotations.

Open Scope Q_scope.

(* ================================================================== *)
(** ** Python numerics on exact seconds *)

Definition Qleb (x y : Q) : bool := Qle_bool x y.
Definition Qltb (x y : Q) : bool := negb (Qle_bool y x).

Infix "<=?" := Qleb (at level 70, no associativity) : Q_scope.
Infix "<?" := Qltb (at level 70, no associativity) : Q_scope.

(** [max(a, b)] keeps the first argument unless the second is strictly
    greater; [min(a, b)] keeps it unless the second is strictly smaller. *)
Definition py_max (a b : Q) : Q := if a <? b then b else a.
Definition py_min (a b : Q) : Q := if b <? a then b else a.

(* ================================================================== *)
(** ** Exceptions *)

Inductive exn : Type :=
| ValueError
| RuntimeError
| TimeoutError
| FileNotFoundError
| CalledProcessError
| RecursionError.

Inductive result (A : Type) : Type :=
| Ok (a : A)
| Raise (e : exn).
Arguments Ok {A} a.
Arguments Raise {A} e.

Definition bind {A B : Type} (r : result A) (k : A -> result B) : result B :=
  match r with
  | Ok a => k a
  | Raise e => Raise e
  end.

Notation "x <- r ;; k" := (bind r (fun x => k))
  (at level 61, r at next level, right associativity).

(* ================================================================== *)
(** ** Data model *)

(** [chunking.ChunkMapping] *)
Module ChunkMapping.
Record t : Type := mk {
  original_video_start_time : Q;
  original_video_end_time : Q;
  chunk_start_time : Q;
  chunk_end_time : Q;
  chunk_index : nat;
  chunk_file_path : string
}.
End ChunkMapping.

(** [gemini_analysis.HighlightMoment] *)
Module HighlightMoment.
Record t : Type := mk {
  start_sec : Q;
  end_sec : Q;
  reason : string
}.
End HighlightMoment.

(** [timestamps.GlobalSegment] *)
Module GlobalSegment.
Record t : Type := mk {
  start_sec : Q;
  end_sec : Q;
  reason : string
}.
End GlobalSegment.

(* ================================================================== *)
(** ** timestamps.py *)

Definition normalize_moment (orig_start chunk_end : Q)
    (segments : list GlobalSegment.t) (m : HighlightMoment.t)
    : list GlobalSegment.t :=
  let local_start := py_max 0 (py_min (HighlightMoment.start_sec m) chunk_end) in
  let local_end := py_max local_start (py_min (HighlightMoment.end_sec m) chunk_end) in
  if local_end <=? local_start then segments
  else segments ++ [GlobalSegment.mk (orig_start + local_start)
                                    (orig_start + local_end)
                                    (HighlightMoment.reason m)].

Definition normalize_to_original_time (mapping : ChunkMapping.t)
    (moments : list HighlightMoment.t) : list GlobalSegment.t :=
  let orig_start := ChunkMapping.original_video_start_time mapping in
  let chunk_end := ChunkMapping.chunk_end_time mapping in
  fold_left (normalize_moment orig_start chunk_end) moments [].

(** The normalizer in the words of the design: clamp both ends into
    [[0, localDuration]], drop when the clamped end is not after the
    clamped start, otherwise offset by the window's source start. *)
Definition clamp (lo hi x : Q) : Q :=
  if x <? lo then lo else if hi <? x then hi else x.

Definition normalize_spec (mapping : ChunkMapping.t)
    (moments : list HighlightMoment.t) : list GlobalSegment.t :=
  let source_start := ChunkMapping.original_video_start_time mapping in
  let local_duration := ChunkMapping.chunk_end_time mapping in
  flat_map (fun m =>
    let s := clamp 0 local_duration (HighlightMoment.start_sec m) in
    let e := clamp 0 local_duration (HighlightMoment.end_sec m) in
    if e <=? s then []
    else [GlobalSegment.mk (source_start + s) (source_start + e)
                           (HighlightMoment.reason m)]) moments.

(** Two segments denote the same interval with the same label. *)
Definition seg_equiv (a b : GlobalSegment.t) : Prop :=
  GlobalSegment.start_sec a == GlobalSegment.start_sec b /\
  GlobalSegment.end_sec a == GlobalSegment.end_sec b /\
  GlobalSegment.reason a = GlobalSegment.reason b.

(** *** merge_overlapping_or_adjacent *)

(** The sort key [(s.start_sec, s.end_sec)], compared as Python compares
    tuples: the first differing component decides. *)
Definition key_lt (a b : GlobalSegment.t) : bool :=
  if Qeq_bool (GlobalSegment.start_sec a) (GlobalSegment.start_sec b) then
    if Qeq_bool (GlobalSegment.end_sec a) (GlobalSegment.end_sec b) then false
    else GlobalSegment.end_sec a <? GlobalSegment.end_sec b
  else GlobalSegment.start_sec a <? GlobalSegment.start_sec b.

(** [sorted] is a stable sort; an element is placed before the first
    later element that is not strictly smaller. *)
Fixpoint insert_by {A : Type} (lt : A -> A -> bool) (x : A) (l : list A)
    : list A :=
  match l with
  | [] => [x]
  | y :: l' => if lt y x then y :: insert_by lt x l' else x :: l
  end.

Definition sorted {A : Type} (lt : A -> A -> bool) (l : list A) : list A :=
  fold_right (insert_by lt) [] l.

(** The list [merged] is never empty inside the loop: it is carried as
    its front and its last element [merged[-1]]. *)
Definition merge_step (gap_sec : Q)
    (merged : list GlobalSegment.t * GlobalSegment.t) (s : GlobalSegment.t)
    : list GlobalSegment.t * GlobalSegment.t :=
  let (front, last) := merged in
  if GlobalSegment.start_sec s <=? GlobalSegment.end_sec last + gap_sec then
    (front,
     GlobalSegment.mk (GlobalSegment.start_sec last)
                      (py_max (GlobalSegment.end_sec last) (GlobalSegment.end_sec s))
                      (GlobalSegment.reason last))
  else (front ++ [last], s).

Definition merge_overlapping_or_adjacent (segments : list GlobalSegment.t)
    (gap_sec : Q) : list GlobalSegment.t :=
  match segments with
  | [] => []
  | _ :: _ =>
      match sorted key_lt segments with
      | [] => []
      | first :: rest =>
          let (front, last) :=
            fold_left (merge_step gap_sec) rest ([], first) in
          front ++ [last]
      end
  end.

(** The same loop read as a recursion on the sorted list: [last] is the
    run being extended, the runs before it are already emitted. *)
Fixpoint sweep (gap_sec : Q) (last : GlobalSegment.t)
    (rest : list GlobalSegment.t) : list GlobalSegment.t :=
  match rest with
  | [] => [last]
  | s :: rest' =>
      if GlobalSegment.start_sec s <=? GlobalSegment.end_sec last + gap_sec then
        sweep gap_sec
          (GlobalSegment.mk (GlobalSegment.start_sec last)
             (py_max (GlobalSegment.end_sec last) (GlobalSegment.end_sec s))
             (GlobalSegment.reason last))
          rest'
      else last :: sweep gap_sec s rest'
  end.

(** A segment of the data model: [end > start]. *)
Definition seg_valid (s : GlobalSegment.t) : Prop :=
  GlobalSegment.start_sec s < GlobalSegment.end_sec s.

(** A segment that is not reversed: [end >= start]. *)
Definition seg_ordered (s : GlobalSegment.t) : Prop :=
  GlobalSegment.start_sec s <= GlobalSegment.end_sec s.

(** The order of the sort key on segments. *)
Definition key_le (a b : GlobalSegment.t) : Prop :=
  GlobalSegment.start_sec a < GlobalSegment.start_sec b \/
  (GlobalSegment.start_sec a == GlobalSegment.start_sec b /\
   GlobalSegment.end_sec a <= GlobalSegment.end_sec b).

(** [b] starts more than [gap_sec] after [a] ends. *)
Definition beyond_gap (gap_sec : Q) (a b : GlobalSegment.t) : Prop :=
  gap_sec < GlobalSegment.start_sec b - GlobalSegment.end_sec a.

(** The merger's test [s.start_sec <= last.end_sec + gap_sec] fails for
    [last = a] and [s = b]. *)
Definition not_joined (gap_sec : Q) (a b : GlobalSegment.t) : Prop :=
  GlobalSegment.end_sec a + gap_sec < GlobalSegment.start_sec b.

Definition starts_before (a b : GlobalSegment.t) : Prop :=
  GlobalSegment.start_sec a < GlobalSegment.start_sec b.

Definition ends_before (a b : GlobalSegment.t) : Prop :=
  GlobalSegment.end_sec a < GlobalSegment.start_sec b.

(** The closed interval of [s] lies inside that of [o]. *)
Definition covered_by (s o : GlobalSegment.t) : Prop :=
  GlobalSegment.start_sec o <= GlobalSegment.start_sec s /\
  GlobalSegment.end_sec s <= GlobalSegment.end_sec o.

(** The default [gap_sec = 2.0]. *)
Definition default_gap_sec : Q := 2.

(** *** cap_total_duration *)

Fixpoint cap_loop (max_duration_sec total : Q) (result : list GlobalSegment.t)
    (segments : list GlobalSegment.t) : list GlobalSegment.t :=
  match segments with
  | [] => result
  | s :: rest =>
      let seg_dur := GlobalSegment.end_sec s - GlobalSegment.start_sec s in
      if total + seg_dur <=? max_duration_sec then
        cap_loop max_duration_sec (total + seg_dur) (result ++ [s]) rest
      else
        let remaining := max_duration_sec - total in
        if 1 <? remaining then
          result ++ [GlobalSegment.mk (GlobalSegment.start_sec s)
                                      (GlobalSegment.start_sec s + remaining)
                                      (GlobalSegment.reason s)]
        else result
  end.

Definition cap_total_duration (segments : list GlobalSegment.t)
    (max_duration_sec : Q) : list GlobalSegment.t :=
  cap_loop max_duration_sec 0 [] segments.

Definition seg_duration (s : GlobalSegment.t) : Q :=
  GlobalSegment.end_sec s - GlobalSegment.start_sec s.

(** The running total of the loop after the segments of [l], from [total]. *)
Definition run_total (total : Q) (l : list GlobalSegment.t) : Q :=
  fold_left (fun t s => t + seg_duration s) l total.

(** [sum(s.end_sec - s.start_sec for s in l)] *)
Definition total_duration (l : list GlobalSegment.t) : Q := run_total 0 l.

(** The same start and label, the end cut [remaining] seconds after the
    start. *)
Definition truncated (s : GlobalSegment.t) (remaining : Q) : GlobalSegment.t :=
  GlobalSegment.mk (GlobalSegment.start_sec s)
                   (GlobalSegment.start_sec s + remaining)
                   (GlobalSegment.reason s).

(* ================================================================== *)
(** ** chunking.py *)

(** The [while] loop of [build_chunks_with_overlap]; [None] when the
    iteration budget [fuel] is used up before the loop exits. *)
Fixpoint chunk_loop (fuel : nat) (duration_sec chunk_duration_sec step : Q)
    (start : Q) (chunks : list (Q * Q)) : option (list (Q * Q)) :=
  match fuel with
  | O => None
  | S fuel' =>
      if start <? duration_sec then
        let end_ := py_min (start + chunk_duration_sec) duration_sec in
        let chunks := chunks ++ [(start, end_)] in
        if duration_sec <=? end_ then Some chunks
        else chunk_loop fuel' duration_sec chunk_duration_sec step
                        (start + step) chunks
      else Some chunks
  end.

(** An iteration budget that the loop never uses up (see
    [build_chunks_within_fuel]): one more than [ceil(duration / step)]. *)
Definition chunk_fuel (duration_sec step : Q) : nat :=
  S (Z.to_nat (Qceiling (duration_sec / step))).

Definition build_chunks_with_overlap (duration_sec chunk_duration_sec
    overlap_sec : Q) : result (list (Q * Q)) :=
  if chunk_duration_sec <=? overlap_sec then Raise ValueError
  else
    let step := chunk_duration_sec - overlap_sec in
    match chunk_loop (chunk_fuel duration_sec step) duration_sec
                     chunk_duration_sec step 0 [] with
    | Some chunks => Ok chunks
    | None => Raise RecursionError
    end.

(** The shape of the loop's output from position [start]: full windows
    of length [chunk_duration_sec] that end before [duration_sec], each
    followed by the window one [step] later, and a last window that ends
    at [duration_sec]. *)
Inductive tiling (duration_sec chunk_duration_sec step : Q)
    : Q -> list (Q * Q) -> Prop :=
| tiling_last (start end_ : Q) :
    start < duration_sec -> end_ == duration_sec ->
    end_ <= start + chunk_duration_sec ->
    tiling duration_sec chunk_duration_sec step start [(start, end_)]
| tiling_more (start end_ : Q) (chunks : list (Q * Q)) :
    end_ == start + chunk_duration_sec -> end_ < duration_sec ->
    tiling duration_sec chunk_duration_sec step (start + step) chunks ->
    tiling duration_sec chunk_duration_sec step start ((start, end_) :: chunks).

(** Length of the intersection of two windows. *)
Definition overlap_of (w1 w2 : Q * Q) : Q :=
  Qmin (snd w1) (snd w2) - Qmax (fst w1) (fst w2).

(** [t] lies in the half-open range of [w]. *)
Definition in_window (t : Q) (w : Q * Q) : Prop := fst w <= t /\ t < snd w.

(* ================================================================== *)
(** ** gemini_analysis.py *)

(** *** The string operations that [parse_moments] uses *)

(** [str.isspace] and the class [\s] on ASCII: tab, line feed, vertical
    tab, form feed, carriage return, the four separators 0x1c-0x1f and
    the space. *)
Definition is_space (c : ascii) : bool :=
  let n := nat_of_ascii c in
  (Nat.leb 9 n && Nat.leb n 13) || (Nat.leb 28 n && Nat.leb n 32).

(** The class [\d] on ASCII. *)
Definition is_digit (c : ascii) : bool :=
  let n := nat_of_ascii c in Nat.leb 48 n && Nat.leb n 57.

Definition upper_char (c : ascii) : ascii :=
  let n := nat_of_ascii c in
  if Nat.leb 97 n && Nat.leb n 122 then ascii_of_nat (n - 32) else c.

(** [s.upper()] *)
Fixpoint upper (s : string) : string :=
  match s with
  | EmptyString => EmptyString
  | String c s' => String (upper_char c) (upper s')
  end.

(** [pat in s] *)
Fixpoint contains (pat s : string) : bool :=
  if prefix pat s then true
  else match s with
       | EmptyString => false
       | String _ s' => contains pat s'
       end.

Fixpoint lstrip (s : string) : string :=
  match s with
  | EmptyString => EmptyString
  | String c s' => if is_space c then lstrip s' else s
  end.

Fixpoint rstrip (s : string) : string :=
  match s with
  | EmptyString => EmptyString
  | String c s' =>
      match rstrip s' with
      | EmptyString => if is_space c then EmptyString else String c EmptyString
      | r => String c r
      end
  end.

(** [s.strip()] *)
Definition strip (s : string) : string := rstrip (lstrip s).

(** [s.split(sep)] for a one-character separator: never an empty list. *)
Fixpoint split (sep : ascii) (s : string) : list string :=
  match s with
  | EmptyString => [EmptyString]
  | String c s' =>
      if Ascii.eqb c sep then EmptyString :: split sep s'
      else match split sep s' with
           | [] => [String c EmptyString]
           | piece :: pieces => String c piece :: pieces
           end
  end.

Fixpoint str_take (k : nat) (s : string) : string :=
  match k, s with
  | S k', String c s' => String c (str_take k' s')
  | _, _ => EmptyString
  end.

Fixpoint str_drop (k : nat) (s : string) : string :=
  match k, s with
  | S k', String _ s' => str_drop k' s'
  | _, _ => s
  end.

(** *** The fragment of [re] that the pattern uses

    A pattern is a sequence of items: one character of a class, or a
    greedy repetition [c*] / [c+] of a class, possibly a capturing group.
    [re.match] anchors at the start of the string, takes the longest run
    first and gives characters back one at a time when the rest of the
    pattern fails. *)
Inductive item : Type :=
| One (cls : ascii -> bool)
| Many (least : nat) (cls : ascii -> bool) (group : bool).

Fixpoint run_length (cls : ascii -> bool) (s : string) : nat :=
  match s with
  | EmptyString => O
  | String c s' => if cls c then S (run_length cls s') else O
  end.

(** Try [k], [k-1], ... down to [least] repetitions. *)
Fixpoint backtrack {R : Type} (attempt : nat -> option R) (least k : nat)
    : option R :=
  if Nat.ltb k least then None
  else match attempt k with
       | Some r => Some r
       | None => match k with
                 | O => None
                 | S k' => backtrack attempt least k'
                 end
       end.

(** The groups of the match, in order, or [None]. *)
Fixpoint re_match (pattern : list item) (s : string) : option (list string) :=
  match pattern with
  | [] => Some []
  | One cls :: rest =>
      match s with
      | String c s' => if cls c then re_match rest s' else None
      | EmptyString => None
      end
  | Many least cls group :: rest =>
      backtrack
        (fun k =>
           match re_match rest (str_drop k s) with
           | Some groups =>
               Some (if group then str_take k s :: groups else groups)
           | None => None
           end)
        least (run_length cls s)
  end.

(** A literal letter under [re.I]. *)
Definition letter (c : ascii) : ascii -> bool :=
  fun x => Ascii.eqb (upper_char x) (upper_char c).

Definition literal (c : ascii) : ascii -> bool := fun x => Ascii.eqb x c.

(** The class [[\d.]]. *)
Definition digit_or_dot (c : ascii) : bool := is_digit c || Ascii.eqb c ".".

(** [.] without [re.DOTALL]: anything but a line feed. *)
Definition any_char (c : ascii) : bool := negb (Ascii.eqb c "010").

(** [r"MOMENT:\s*([\d.]+)\s+([\d.]+)\s+(.+)"] with [re.I] *)
Definition MOMENT_RE : list item :=
  [ One (letter "M"); One (letter "O"); One (letter "M"); One (letter "E");
    One (letter "N"); One (letter "T"); One (literal ":");
    Many 0 is_space false;
    Many 1 digit_or_dot true;
    Many 1 is_space false;
    Many 1 digit_or_dot true;
    Many 1 is_space false;
    Many 1 any_char true ].

(** *** [float(s)]

    On the strings that groups 1 and 2 can hold, digits and dots:
    a decimal numeral with at most one point and at least one digit is
    converted, everything else raises [ValueError]. *)
Fixpoint digits_value (acc : Z) (s : string) : option Z :=
  match s with
  | EmptyString => Some acc
  | String c s' =>
      if is_digit c
      then digits_value (10 * acc + (Z.of_nat (nat_of_ascii c) - 48))%Z s'
      else None
  end.

Definition is_dot (c : ascii) : bool := Ascii.eqb c ".".

Definition py_float (s : string) : result Q :=
  let int_len := run_length (fun c => negb (is_dot c)) s in
  let int_part := str_take int_len s in
  let frac_part := str_drop (S int_len) s in
  let digits := (int_part ++ frac_part)%string in
  match digits with
  | EmptyString => Raise ValueError
  | _ =>
      match digits_value 0 digits with
      | Some n => Ok (Qmake n (Z.to_pos (10 ^ Z.of_nat (String.length frac_part))))
      | None => Raise ValueError
      end
  end.

(** *** parse_moments *)

Definition parse_line (moments : list HighlightMoment.t) (line : string)
    : result (list HighlightMoment.t) :=
  let line := strip line in
  match re_match MOMENT_RE line with
  | Some [g1; g2; g3] =>
      start <- py_float g1 ;;
      end_ <- py_float g2 ;;
      let reason := strip g3 in
      if (start <? end_) && (0 <=? start)
      then Ok (moments ++ [HighlightMoment.mk start end_ reason])
      else Ok moments
  | _ => Ok moments
  end.

Definition parse_moments (text : string) : result (list HighlightMoment.t) :=
  let moments : list HighlightMoment.t := [] in
  if String.eqb text "" || contains "NONE" (upper text) then Ok moments
  else
    fold_left (fun acc line => moments <- acc ;; parse_line moments line)
              (split "010" (strip text)) (Ok moments).

(** The four letters of the sentinel in either case. *)
Definition none_word (w : string) : Prop :=
  exists c1 c2 c3 c4 : ascii,
    w = String c1 (String c2 (String c3 (String c4 EmptyString))) /\
    (c1 = "n" \/ c1 = "N")%char /\ (c2 = "o" \/ c2 = "O")%char /\
    (c3 = "n" \/ c3 = "N")%char /\ (c4 = "e" \/ c4 = "E")%char.

(** [w] occurs in [text] as a substring. *)
Definition occurs_in (w text : string) : Prop :=
  exists before after : string, text = (before ++ w ++ after)%string.

(* ================================================================== *)
(** ** config.py and pipeline.py *)

(** [config.HighlightConfig] *)
Module HighlightConfig.
Record t : Type := mk {
  video_path : string;
  output_dir : string;
  output_basename : string;
  chunk_duration_sec : Q;
  chunk_overlap_sec : Q;
  highlight_max_duration_sec : Q;
  highlight_min_duration_sec : Q;
  crossfade_duration_sec : Q;
  gemini_model : string;
  gemini_api_key : string
}.

(** The field defaults of the dataclass, for a given video and key. *)
Definition default (video key : string) : t :=
  mk video "output" "highlights" 90 8 240 180 (1 # 2) "gemini-2.5-flash" key.
End HighlightConfig.

(** The external collaborators of a run: the file system, the media
    prober and extractor (ffprobe, ffmpeg), the remote chunk analyzer and
    the media assembler.  Each is a function of its arguments whose
    outcome is a value or the exception it raises.  Creating the output
    directories and logging are left out. *)
Module World.
Record t : Type := mk {
  is_file : string -> bool;
  environ_GEMINI_API_KEY : string;
  path_join : string -> string -> string;
  chunk_label : nat -> Q -> Q -> string;
  get_video_duration_sec : string -> result Q;
  extract_chunk_video : string -> Q -> Q -> string -> result unit;
  analyze_chunk_with_gemini : string -> string -> string -> result string;
  build_highlight_video :
    string -> list GlobalSegment.t -> string -> Q -> result unit
}.
End World.

(** The loop of [build_chunk_mappings] over [enumerate(intervals)]. *)
Fixpoint extract_chunks (w : World.t) (source_video_path work_dir : string)
    (i : nat) (intervals : list (Q * Q)) (mappings : list ChunkMapping.t)
    : result (list ChunkMapping.t) :=
  match intervals with
  | [] => Ok mappings
  | (start, end_) :: intervals' =>
      let chunk_dur := end_ - start in
      let label := World.chunk_label w i start end_ in
      let out_path := World.path_join w work_dir label in
      _ <- World.extract_chunk_video w source_video_path start end_ out_path ;;
      extract_chunks w source_video_path work_dir (S i) intervals'
        (mappings ++ [ChunkMapping.mk start end_ 0 chunk_dur i out_path])
  end.

Definition build_chunk_mappings (w : World.t)
    (source_video_path work_dir : string)
    (chunk_duration_sec overlap_sec : Q)
    : result (list ChunkMapping.t * Q) :=
  duration_sec <- World.get_video_duration_sec w source_video_path ;;
  intervals <-
    build_chunks_with_overlap duration_sec chunk_duration_sec overlap_sec ;;
  mappings <- extract_chunks w source_video_path work_dir 0 intervals [] ;;
  Ok (mappings, duration_sec).

Definition get_chunk_highlights (w : World.t) (mapping : ChunkMapping.t)
    (model api_key : string) : result (list HighlightMoment.t * string) :=
  raw <- World.analyze_chunk_with_gemini w
           (ChunkMapping.chunk_file_path mapping) model api_key ;;
  moments <- parse_moments raw ;;
  Ok (moments, raw).

(** Steps 2 and 3 of [run_pipeline]: the loop over the windows. *)
Fixpoint analyze_chunks (w : World.t) (config : HighlightConfig.t)
    (mappings : list ChunkMapping.t)
    (all_global_segments : list GlobalSegment.t)
    : result (list GlobalSegment.t) :=
  match mappings with
  | [] => Ok all_global_segments
  | m :: mappings' =>
      got <- get_chunk_highlights w m (HighlightConfig.gemini_model config)
               (HighlightConfig.gemini_api_key config) ;;
      let segments := normalize_to_original_time m (fst got) in
      analyze_chunks w config mappings' (all_global_segments ++ segments)
  end.

(** The summary that [run_pipeline] returns (the formatted times of the
    segments are left out). *)
Module Summary.
Record t : Type := mk {
  source_video : string;
  source_duration_sec : Q;
  chunks_dir : string;
  highlight_video_path : string;
  highlight_duration_sec : Q;
  segments : list GlobalSegment.t;
  num_chunks : nat
}.
End Summary.

Definition run_pipeline (w : World.t) (config : HighlightConfig.t)
    : result Summary.t :=
  let video_path := HighlightConfig.video_path config in
  if String.eqb video_path "" || negb (World.is_file w video_path)
  then Raise FileNotFoundError
  else if String.eqb (HighlightConfig.gemini_api_key config) "" &&
          String.eqb (World.environ_GEMINI_API_KEY w) ""
  then Raise ValueError
  else
    let out_dir := HighlightConfig.output_dir config in
    let chunks_dir :=
      World.path_join w (World.path_join w out_dir "chunks")
                      (HighlightConfig.output_basename config) in
    tiled <- build_chunk_mappings w video_path chunks_dir
               (HighlightConfig.chunk_duration_sec config)
               (HighlightConfig.chunk_overlap_sec config) ;;
    let (mappings, total_duration) := tiled : list ChunkMapping.t * Q in
    all_global_segments <- analyze_chunks w config mappings [] ;;
    let merged :=
      merge_overlapping_or_adjacent all_global_segments default_gap_sec in
    let capped :=
      cap_total_duration merged
        (HighlightConfig.highlight_max_duration_sec config) in
    let total_highlight_dur :=
      fold_left (fun acc s =>
                   acc + (GlobalSegment.end_sec s - GlobalSegment.start_sec s))
                capped 0 in
    let highlight_path :=
      World.path_join w out_dir
        (HighlightConfig.output_basename config ++ ".mp4")%string in
    _ <- World.build_highlight_video w video_path capped highlight_path
           (HighlightConfig.crossfade_duration_sec config) ;;
    Ok (Summary.mk video_path total_duration chunks_dir highlight_path
                   total_highlight_dur capped (List.length mappings)).

(** A world in which every collaborator succeeds, except that the chunk
    analyzer times out on the window whose file is [bad]. *)
Definition flaky_world (bad : string) : World.t :=
  World.mk (fun _ => true) "key"%string
    (fun dir name => (dir ++ "/" ++ name)%string)
    (fun i _ _ => match i with
                  | O => "chunk_0000.mp4"
                  | 1%nat => "chunk_0001.mp4"
                  | _ => "chunk_later.mp4"
                  end%string)
    (fun _ => Ok 100)
    (fun _ _ _ _ => Ok tt)
    (fun path _ _ =>
       if String.eqb path bad then Raise TimeoutError
       else Ok "MOMENT: 1.0 3.5 goal"%string)
    (fun _ _ _ _ => Ok tt).

(* ================================================================== *)
(** ** Readings of the loops, used to state further properties *)

(** The mappings that [build_chunk_mappings] builds for the intervals,
    numbered from [i]. *)
Fixpoint mappings_from (w : World.t) (work_dir : string) (i : nat)
    (intervals : list (Q * Q)) : list ChunkMapping.t :=
  match intervals with
  | [] => []
  | (start, end_) :: intervals' =>
      ChunkMapping.mk start end_ 0 (end_ - start) i
        (World.path_join w work_dir (World.chunk_label w i start end_))
      :: mappings_from w work_dir (S i) intervals'
  end.

(** A moment shifted from window time to source time. *)
Definition shifted (orig_start : Q) (m : HighlightMoment.t) : GlobalSegment.t :=
  GlobalSegment.mk (orig_start + HighlightMoment.start_sec m)
                   (orig_start + HighlightMoment.end_sec m)
                   (HighlightMoment.reason m).

(** [s] lies within [[lo, hi]]. *)
Definition within (lo hi : Q) (s : GlobalSegment.t) : Prop :=
  lo <= GlobalSegment.start_sec s /\ GlobalSegment.end_sec s <= hi.

(** A world like [flaky_world] with a healthy analyzer, in which ffmpeg
    fails to extract the window that starts at [bad_start]. *)
Definition failing_extract_world (bad_start : Q) : World.t :=
  World.mk (fun _ => true) "key"%string
    (fun dir name => (dir ++ "/" ++ name)%string)
    (fun i _ _ => match i with
                  | O => "chunk_0000.mp4"
                  | 1%nat => "chunk_0001.mp4"
                  | _ => "chunk_later.mp4"
                  end%string)
    (fun _ => Ok 100)
    (fun _ start _ _ =>
       if Qeq_bool start bad_start then Raise CalledProcessError else Ok tt)
    (fun _ _ _ => Ok "MOMENT: 1.0 3.5 goal"%string)
    (fun _ _ _ _ => Ok tt).

(* ================================================================== *)
(** ** chunking.py: the names of the chunk files *)

(** [str(n)] for a natural number. *)
Definition digits_of_nat (n : nat) : string :=
  DecimalString.NilEmpty.string_of_uint (Nat.to_uint n).

Fixpoint zeros (k : nat) : string :=
  match k with
  | O => EmptyString
  | S k' => String "0" (zeros k')
  end.

Definition zero_pad (width : nat) (s : string) : string :=
  (zeros (width - String.length s) ++ s)%string.

(** [format(z, "0<width>d")], as in [f"{z:04d}"]: the number is padded
    with zeros to the width, in which a minus sign counts. *)
Definition format_d (width : nat) (z : Z) : string :=
  if (z <? 0)%Z
  then String "-" (zero_pad (width - 1) (digits_of_nat (Z.to_nat (- z))))
  else zero_pad width (digits_of_nat (Z.to_nat z)).

(** [int(sec)] truncates towards zero. *)
Definition py_int (sec : Q) : Z := Z.quot (Qnum sec) (Zpos (Qden sec)).

(** [//] and [%] on integers round towards minus infinity, as [Z.div]
    and [Z.modulo] do. *)
Definition _time_label (sec : Q) : string :=
  let m := (py_int sec / 60)%Z in
  let s := (py_int sec mod 60)%Z in
  (format_d 2 m ++ "m" ++ format_d 2 s ++ "s")%string.

(** The [label] of [build_chunk_mappings]:
    [f"chunk_{i:04d}_{_time_label(start)}_{_time_label(end)}.mp4"]. *)
Definition chunk_file_label (i : nat) (start end_ : Q) : string :=
  ("chunk_" ++ format_d 4 (Z.of_nat i) ++ "_" ++ _time_label start ++ "_"
   ++ _time_label end_ ++ ".mp4")%string.

(** Reading a string of decimal digits back. *)
Definition nat_of_digits (s : string) : option nat :=
  option_map Nat.of_uint (DecimalString.NilEmpty.uint_of_string s).

Fixpoint all_chars (p : ascii -> bool) (s : string) : bool :=
  match s with
  | EmptyString => true
  | String c s' => p c && all_chars p s'
  end.

(** The characters of a formatted integer, and of a time label. *)
Definition numeric (c : ascii) : bool := is_digit c || Ascii.eqb c "-".

Definition label_char (c : ascii) : bool :=
  numeric c || Ascii.eqb c "m" || Ascii.eqb c "s".

(** A world with the file names of the code: the labels are those of
    [chunk_file_label] and a path is the directory, a slash and the
    name; every collaborator succeeds. *)
Definition healthy_world (duration_sec : Q) (response : string) : World.t :=
  World.mk (fun _ => true) "key"%string
    (fun dir name => (dir ++ "/" ++ name)%string)
    chunk_file_label
    (fun _ => Ok duration_sec)
    (fun _ _ _ _ => Ok tt)
    (fun _ _ _ => Ok response)
    (fun _ _ _ _ => Ok tt).

(* ================================================================== *)
(** ** gemini_analysis.py: waiting for the upload and asking the model *)

(** What the polling loop distinguishes in [file_resource.state]:
    ACTIVE, FAILED, and anything else (processing, unspecified, none). *)
Inductive file_state : Type :=
| STATE_ACTIVE
| STATE_FAILED
| STATE_OTHER.

(** The [genai] client and the clock as one call of
    [analyze_chunk_with_gemini] sees them.  [monotonic n] is the [n]-th
    reading of [time.monotonic()] - reading 0 fixes the deadline, reading
    [k+1] is the loop test before poll [k] - and [files_get name k] is
    the outcome of poll [k].  An empty name or text stands for a missing
    one. *)
Module Gemini.
Record t : Type := mk {
  path_is_file : string -> bool;
  files_upload : string -> result string;
  monotonic : nat -> Q;
  files_get : string -> nat -> result file_state;
  generate_content : string -> string -> result string
}.
End Gemini.

Definition FILE_ACTIVE_WAIT_TIMEOUT_SEC : Q := 300.
Definition FILE_ACTIVE_POLL_INTERVAL_SEC : Q := 5.

(** The [while] loop of [_wait_for_file_active] from poll [k] on;
    [None] when [fuel] iterations were not enough. *)
Fixpoint wait_loop (fuel : nat) (client : Gemini.t) (file_name : string)
    (deadline : Q) (k : nat) : option (result unit) :=
  match fuel with
  | O => None
  | S fuel' =>
      if Gemini.monotonic client (S k) <? deadline then
        match Gemini.files_get client file_name k with
        | Raise e => Some (Raise e)
        | Ok STATE_ACTIVE => Some (Ok tt)
        | Ok STATE_FAILED => Some (Raise RuntimeError)
        | Ok STATE_OTHER => wait_loop fuel' client file_name deadline (S k)
        end
      else Some (Raise TimeoutError)
  end.

Definition _wait_for_file_active (fuel : nat) (client : Gemini.t)
    (file_name : string) : option (result unit) :=
  let deadline := Gemini.monotonic client 0 + FILE_ACTIVE_WAIT_TIMEOUT_SEC in
  wait_loop fuel client file_name deadline 0.

(** [analyze_chunk_with_gemini], with the client that
    [genai.Client(api_key=...)] returns. *)
Definition analyze_chunk_with_gemini (fuel : nat) (client : Gemini.t)
    (chunk_file_path model : string) : option (result string) :=
  if negb (Gemini.path_is_file client chunk_file_path)
  then Some (Raise FileNotFoundError)
  else
    match Gemini.files_upload client chunk_file_path with
    | Raise e => Some (Raise e)
    | Ok file_name =>
        if String.eqb file_name "" then Some (Raise RuntimeError)
        else
          match _wait_for_file_active fuel client file_name with
          | None => None
          | Some (Raise e) => Some (Raise e)
          | Some (Ok _) =>
              match Gemini.generate_content client model file_name with
              | Raise e => Some (Raise e)
              | Ok text =>
                  if String.eqb text "" then Some (Ok "NONE"%string)
                  else Some (Ok text)
              end
          end
    end.

(** A client whose upload becomes ACTIVE at poll [ready], with a clock
    that advances 5 seconds per poll. *)
Definition slow_client (ready : nat) (response : string) : Gemini.t :=
  Gemini.mk (fun _ => true) (fun _ => Ok "files/abc"%string)
    (fun n => inject_Z (5 * Z.of_nat n))
    (fun _ k => if Nat.leb ready k then Ok STATE_ACTIVE else Ok STATE_OTHER)
    (fun _ _ => Ok response).

(* ================================================================== *)
(** ** highlight_build.py *)

(** The external commands of [build_highlight_video], by what they are
    asked to do (the argument vectors and the formatting of the numbers
    in them are left out):
    - [ExtractSegment source start duration output]: [extract_segment],
      ffmpeg [-ss start -i source -t duration ... output];
    - [FadeInOut input fade_dur fade_out_start output]: ffmpeg with
      [fade=t=in:st=0:d=fade_dur,fade=t=out:st=fade_out_start:d=fade_dur]
      on video and audio;
    - [WriteConcatList concat_list files]: writing one [file '...'] line
      per segment file;
    - [ConcatCopy concat_list output]: ffmpeg [-f concat ... -c copy];
    - [ProbeDuration path]: ffprobe for the duration. *)
Inductive ffmpeg_call : Type :=
| ExtractSegment (source : string) (start_sec duration : Q) (output : string)
| FadeInOut (input : string) (fade_dur fade_out_start : Q) (output : string)
| WriteConcatList (concat_list : string) (files : list string)
| ConcatCopy (concat_list output : string)
| ProbeDuration (path : string).

(** The machine the commands run on: each command succeeds or raises;
    [probe] is the duration read from ffprobe's output. *)
Module Ffmpeg.
Record t : Type := mk {
  path_join : string -> string -> string;
  path_resolve : string -> string;
  run : ffmpeg_call -> result unit;
  probe : string -> result Q
}.
End Ffmpeg.

(** A computation that issues commands: the commands issued, in order,
    and what it returns or raises. *)
Definition traced (A : Type) : Type := (list ffmpeg_call * result A)%type.

Definition tbind {A B : Type} (m : traced A) (k : A -> traced B) : traced B :=
  match m with
  | (calls, Ok a) => let (calls', r) := k a in (calls ++ calls', r)
  | (calls, Raise e) => (calls, Raise e)
  end.

Definition issue (fx : Ffmpeg.t) (call : ffmpeg_call) : traced unit :=
  ([call], Ffmpeg.run fx call).

Definition issue_probe (fx : Ffmpeg.t) (path : string) : traced Q :=
  ([ProbeDuration path], Ffmpeg.probe fx path).

(** [f"seg_{i:04d}.mp4"] *)
Definition seg_file_name (i : nat) : string :=
  ("seg_" ++ format_d 4 (Z.of_nat i) ++ ".mp4")%string.

Definition extract_segment (fx : Ffmpeg.t) (source_video : string)
    (start_sec end_sec : Q) (output_path : string) : traced unit :=
  let duration := end_sec - start_sec in
  issue fx (ExtractSegment source_video start_sec duration output_path).

(** The first loop of [build_highlight_video], over [enumerate(segments)]. *)
Fixpoint extract_segments (fx : Ffmpeg.t) (source_video work_dir : string)
    (i : nat) (segments : list GlobalSegment.t) (segment_files : list string)
    : traced (list string) :=
  match segments with
  | [] => ([], Ok segment_files)
  | seg :: segments' =>
      let seg_path := Ffmpeg.path_join fx work_dir (seg_file_name i) in
      tbind (extract_segment fx source_video (GlobalSegment.start_sec seg)
               (GlobalSegment.end_sec seg) seg_path)
        (fun _ =>
           extract_segments fx source_video work_dir (S i) segments'
             (segment_files ++ [seg_path]))
  end.

(** [build_highlight_video]; creating [work_dir] is left out.  With one
    segment file [segments[0]] exists, the loop makes one file per
    segment: the branch for an empty [segments] is not reached. *)
Definition build_highlight_video (fx : Ffmpeg.t) (source_video : string)
    (segments : list GlobalSegment.t) (output_path work_dir : string)
    (crossfade_duration_sec : Q) : traced unit :=
  tbind (extract_segments fx source_video work_dir 0 segments [])
    (fun segment_files =>
       match segment_files with
       | [] => ([], Raise ValueError)
       | [seg_path] =>
           let output_path := Ffmpeg.path_resolve fx output_path in
           match segments with
           | [] => ([], Raise RuntimeError)
           | seg0 :: _ =>
               let dur :=
                 GlobalSegment.end_sec seg0 - GlobalSegment.start_sec seg0 in
               let fade_dur := py_min crossfade_duration_sec (dur / 4) in
               issue fx (FadeInOut seg_path fade_dur (dur - fade_dur)
                           output_path)
           end
       | _ =>
           let output_path := Ffmpeg.path_resolve fx output_path in
           let concat_list := Ffmpeg.path_join fx work_dir "concat_list.txt" in
           tbind (issue fx (WriteConcatList concat_list
                              (map (Ffmpeg.path_resolve fx) segment_files)))
             (fun _ =>
                let temp_concat :=
                  Ffmpeg.path_join fx work_dir "temp_concat.mp4" in
                tbind (issue fx (ConcatCopy concat_list temp_concat))
                  (fun _ =>
                     tbind (issue_probe fx temp_concat)
                       (fun total_dur =>
                          let fade_dur :=
                            py_min crossfade_duration_sec (total_dur / 4) in
                          issue fx (FadeInOut temp_concat fade_dur
                                      (total_dur - fade_dur) output_path))))
       end).

(** What a command did on the machine. *)
Definition outcome (fx : Ffmpeg.t) (call : ffmpeg_call) : result unit :=
  match call with
  | ProbeDuration path =>
      match Ffmpeg.probe fx path with
      | Ok _ => Ok tt
      | Raise e => Raise e
      end
  | _ => Ffmpeg.run fx call
  end.

(** The extraction commands for the segments, numbered from [i]. *)
Fixpoint extraction_calls (fx : Ffmpeg.t) (source_video work_dir : string)
    (i : nat) (segments : list GlobalSegment.t) : list ffmpeg_call :=
  match segments with
  | [] => []
  | seg :: segments' =>
      ExtractSegment source_video (GlobalSegment.start_sec seg)
        (GlobalSegment.end_sec seg - GlobalSegment.start_sec seg)
        (Ffmpeg.path_join fx work_dir (seg_file_name i))
      :: extraction_calls fx source_video work_dir (S i) segments'
  end.

(** The files of the segments, numbered from [i]:
    [work_dir / seg_NNNN.mp4]. *)
Fixpoint segment_paths (fx : Ffmpeg.t) (work_dir : string) (i : nat)
    (segments : list GlobalSegment.t) : list string :=
  match segments with
  | [] => []
  | _ :: segments' =>
      Ffmpeg.path_join fx work_dir (seg_file_name i)
      :: segment_paths fx work_dir (S i) segments'
  end.

(** The commands that follow the extractions: for one segment the fade
    of its file, over the segment's own duration; for more the list
    file, the concatenation, the probe of the concatenated file and the
    fade over the probed duration [total_dur]. *)
Definition finishing_calls (fx : Ffmpeg.t) (segments : list GlobalSegment.t)
    (output_path work_dir : string) (crossfade_duration_sec total_dur : Q)
    : list ffmpeg_call :=
  match segments with
  | [] => []
  | [seg0] =>
      let dur := GlobalSegment.end_sec seg0 - GlobalSegment.start_sec seg0 in
      let fade_dur := py_min crossfade_duration_sec (dur / 4) in
      [FadeInOut (Ffmpeg.path_join fx work_dir (seg_file_name 0))
         fade_dur (dur - fade_dur) (Ffmpeg.path_resolve fx output_path)]
  | _ =>
      let concat_list := Ffmpeg.path_join fx work_dir "concat_list.txt" in
      let temp_concat := Ffmpeg.path_join fx work_dir "temp_concat.mp4" in
      let fade_dur := py_min crossfade_duration_sec (total_dur / 4) in
      [WriteConcatList concat_list
         (map (Ffmpeg.path_resolve fx) (segment_paths fx work_dir 0 segments));
       ConcatCopy concat_list temp_concat;
       ProbeDuration temp_concat;
       FadeInOut temp_concat fade_dur (total_dur - fade_dur)
         (Ffmpeg.path_resolve fx output_path)]
  end.

(** A machine on which every command succeeds, except the extraction of
    the segment that starts at [bad_start]; the concatenation lasts
    [total] seconds. *)
Definition studio (bad_start total : Q) : Ffmpeg.t :=
  Ffmpeg.mk (fun dir name => (dir ++ "/" ++ name)%string) (fun p => p)
    (fun call =>
       match call with
       | ExtractSegment _ start _ _ =>
           if Qeq_bool start bad_start then Raise CalledProcessError else Ok tt
       | _ => Ok tt
       end)
    (fun _ => Ok total).

(** A command sequence that ran to its end, or up to the command that
    raised: every command before the last one succeeded, and the last one
    succeeded or raised what the sequence raises. *)
Definition ran_in_order {A : Type} (fx : Ffmpeg.t) (m : traced A) : Prop :=
  match snd m with
  | Ok _ => Forall (fun c => outcome fx c = Ok tt) (fst m)
  | Raise e =>
      exists front call,
        fst m = front ++ [call] /\ outcome fx call = Raise e /\
        Forall (fun c => outcome fx c = Ok tt) front
  end.

Definition is_probe (call : ffmpeg_call) : bool :=
  match call with
  | ProbeDuration _ => true
  | _ => false
  end.

(** A world whose assembler is [build_highlight_video] on the machine
    [studio], in which every other collaborator succeeds and the
    analyzer answers [response] for every chunk. *)
Definition assembling_world (response : string) : World.t :=
  World.mk (fun _ => true) "key"%string
    (fun dir name => (dir ++ "/" ++ name)%string)
    chunk_file_label
    (fun _ => Ok 100)
    (fun _ _ _ _ => Ok tt)
    (fun _ _ _ => Ok response)
    (fun video segments output crossfade =>
       snd (build_highlight_video (studio (-1) 30) video segments output
              "highlight_segments" crossfade)).

(* ================================================================== *)
(** ** The tiler and the capper on binary64 floats

    The same two loops, transcribed on the binary64 floats of the
    source: [+], [-], [<], [<=] are the IEEE 754 operations, rounded to
    nearest.  A decimal literal of the source such as [8.3] is written
    as the quotient [83 / 10], which rounds to the same double. *)

Module Binary64.

Local Open Scope float_scope.

Definition py_min (a b : float) : float := if b <? a then b else a.

(** The [while] loop of [build_chunks_with_overlap]; [None] when the
    iteration budget [fuel] is used up before the loop exits. *)
Fixpoint chunk_loop (fuel : nat) (duration_sec chunk_duration_sec step : float)
    (start : float) (chunks : list (float * float))
    : option (list (float * float)) :=
  match fuel with
  | O => None
  | S fuel' =>
      if start <? duration_sec then
        let end_ := py_min (start + chunk_duration_sec) duration_sec in
        let chunks := (chunks ++ [(start, end_)])%list in
        if duration_sec <=? end_ then Some chunks
        else chunk_loop fuel' duration_sec chunk_duration_sec step
                        (start + step) chunks
      else Some chunks
  end.

Definition build_chunks_with_overlap (fuel : nat) (duration_sec
    chunk_duration_sec overlap_sec : float)
    : option (result (list (float * float))) :=
  if chunk_duration_sec <=? overlap_sec then Some (Raise ValueError)
  else
    let step := chunk_duration_sec - overlap_sec in
    option_map Ok (chunk_loop fuel duration_sec chunk_duration_sec step 0 []).

(** Length of the intersection of two windows, the later one second. *)
Definition overlap_of (w1 w2 : float * float) : float :=
  snd w1 - fst w2.

Record segment : Type := mk_segment {
  start_sec : float;
  end_sec : float;
  reason : string
}.

Fixpoint cap_loop (max_duration_sec total : float) (result : list segment)
    (segments : list segment) : list segment :=
  match segments with
  | [] => result
  | s :: rest =>
      let seg_dur := end_sec s - start_sec s in
      if total + seg_dur <=? max_duration_sec then
        cap_loop max_duration_sec (total + seg_dur) (result ++ [s])%list rest
      else
        let remaining := max_duration_sec - total in
        if 1 <? remaining then
          (result ++ [mk_segment (start_sec s) (start_sec s + remaining)
                                 (reason s)])%list
        else result
  end.

Definition cap_total_duration (segments : list segment)
    (max_duration_sec : float) : list segment :=
  cap_loop max_duration_sec 0 [] segments.

(** [sum(s.end_sec - s.start_sec for s in l)] *)
Definition total_duration (l : list segment) : float :=
  fold_left (fun t s => t + (end_sec s - start_sec s)) l 0.

End Binary64.

(* ================================================================== *)
(** * Properties *)

Lemma Qleb_spec (x y : Q) : reflect (x <= y) (x <=? y).
Proof.
  unfold Qleb. destruct (Qle_bool x y) eqn:E; constructor.
  - now apply Qle_bool_iff.
  - intro H. apply Qle_bool_iff in H. congruence.
Qed.

Lemma Qltb_spec (x y : Q) : reflect (x < y) (x <? y).
Proof.
  unfold Qltb. destruct (Qle_bool y x) eqn:E; constructor.
  - apply Qle_bool_iff in E. lra.
  - apply Qnot_le_lt. intro H. apply Qle_bool_iff in H. congruence.
Qed.

Ltac qcases :=
  repeat match goal with
  | |- context [?x <=? ?y] => destruct (Qleb_spec x y)
  | |- context [?x <? ?y] => destruct (Qltb_spec x y)
  | H : context [?x <=? ?y] |- _ => destruct (Qleb_spec x y)
  | H : context [?x <? ?y] |- _ => destruct (Qltb_spec x y)
  end.



Lemma py_max_cases (a b : Q) :
  (a < b /\ py_max a b = b) \/ (b <= a /\ py_max a b = a).
Proof. unfold py_max. destruct (Qltb_spec a b); [left | right]; split; auto; lra. Qed.

Lemma py_min_cases (a b : Q) :
  (b < a /\ py_min a b = b) \/ (a <= b /\ py_min a b = a).
Proof. unfold py_min. destruct (Qltb_spec b a); [left | right]; split; auto; lra. Qed.

Lemma clamp_cases (lo hi x : Q) :
  (x < lo /\ clamp lo hi x = lo) \/
  (lo <= x /\ hi < x /\ clamp lo hi x = hi) \/
  (lo <= x /\ x <= hi /\ clamp lo hi x = x).
Proof.
  unfold clamp. destruct (Qltb_spec x lo); [left; split; auto|].
  destruct (Qltb_spec hi x); right; [left | right]; repeat split; auto; lra.
Qed.

(* ------------------------------------------------------------------ *)
(** ** Timestamp normalizer *)

Section Normalizer.
Variables orig_start chunk_end : Q.

Lemma normalize_moment_app (acc : list GlobalSegment.t) (m : HighlightMoment.t) :
  normalize_moment orig_start chunk_end acc m =
  acc ++ normalize_moment orig_start chunk_end [] m.
Proof.
  unfold normalize_moment.
  destruct (_ <=? _); [now rewrite app_nil_r | reflexivity].
Qed.

Lemma normalize_fold (moments : list HighlightMoment.t) :
  forall acc,
    fold_left (normalize_moment orig_start chunk_end) moments acc =
    acc ++ flat_map (normalize_moment orig_start chunk_end []) moments.
Proof.
  induction moments as [|m ms IH]; intro acc; simpl.
  - now rewrite app_nil_r.
  - rewrite IH, normalize_moment_app, <- app_assoc. reflexivity.
Qed.

(** What one moment contributes, against the clamps of the design. *)
Lemma normalize_moment_clamp (m : HighlightMoment.t) :
  0 <= chunk_end ->
  let s := clamp 0 chunk_end (HighlightMoment.start_sec m) in
  let e := clamp 0 chunk_end (HighlightMoment.end_sec m) in
  Forall2 seg_equiv
    (normalize_moment orig_start chunk_end [] m)
    (if e <=? s then []
     else [GlobalSegment.mk (orig_start + s) (orig_start + e)
                            (HighlightMoment.reason m)]).
Proof.
  intros Hce s e. subst s e. unfold normalize_moment.
  set (ms := HighlightMoment.start_sec m).
  set (me := HighlightMoment.end_sec m).
  destruct (py_min_cases ms chunk_end) as [[? E1]|[? E1]];
  destruct (py_min_cases me chunk_end) as [[? E2]|[? E2]];
  rewrite E1, E2;
  destruct (clamp_cases 0 chunk_end ms) as [[? C1]|[[? [? C1]]|[? [? C1]]]];
  destruct (clamp_cases 0 chunk_end me) as [[? C2]|[[? [? C2]]|[? [? C2]]]];
  rewrite C1, C2; try lra;
  match goal with
  | |- context [py_max 0 ?x] =>
      destruct (py_max_cases 0 x) as [[? M1]|[? M1]]; rewrite M1; try lra
  end;
  match goal with
  | |- context [py_max ?a ?x] =>
      destruct (py_max_cases a x) as [[? M2]|[? M2]]; rewrite M2; try lra
  end;
  qcases; try lra; try constructor; try constructor;
  unfold seg_equiv; simpl; repeat split; try lra.
Qed.

Lemma normalize_moment_bounds (m : HighlightMoment.t) (s : GlobalSegment.t) :
  In s (normalize_moment orig_start chunk_end [] m) ->
  orig_start <= GlobalSegment.start_sec s /\
  GlobalSegment.start_sec s < GlobalSegment.end_sec s /\
  GlobalSegment.end_sec s <= orig_start + chunk_end.
Proof.
  unfold normalize_moment.
  set (ms := HighlightMoment.start_sec m).
  set (me := HighlightMoment.end_sec m).
  destruct (py_min_cases ms chunk_end) as [[? E1]|[? E1]];
  destruct (py_min_cases me chunk_end) as [[? E2]|[? E2]];
  rewrite E1, E2;
  match goal with
  | |- context [py_max 0 ?x] =>
      destruct (py_max_cases 0 x) as [[? M1]|[? M1]]; rewrite M1
  end;
  match goal with
  | |- context [py_max ?a ?x] =>
      destruct (py_max_cases a x) as [[? M2]|[? M2]]; rewrite M2
  end;
  qcases; simpl; intros Hin; try contradiction;
  destruct Hin as [<-|[]]; simpl; repeat split; lra.
Qed.
End Normalizer.

(** C6. For a window of non-negative local duration and any moments, the
    normalizer does what the design says: it clamps both ends of each
    moment into [[0, localDuration]], drops the moment exactly when the
    clamped end is not after the clamped start, and otherwise emits the
    clamped interval offset by the window's source start, with the
    moment's label.  Every emitted segment lies within
    [[sourceStart, sourceStart + localDuration]], its end not before its
    start, and for the window with source start 100 and local duration
    30 the moment (-5, 35) yields the segment (100, 130). *)
Theorem normalize_to_original_time_clamps
    (mapping : ChunkMapping.t) (moments : list HighlightMoment.t) :
  0 <= ChunkMapping.chunk_end_time mapping ->
  Forall2 seg_equiv (normalize_to_original_time mapping moments)
                    (normalize_spec mapping moments) /\
  (forall s, In s (normalize_to_original_time mapping moments) ->
     ChunkMapping.original_video_start_time mapping <= GlobalSegment.start_sec s /\
     GlobalSegment.start_sec s <= GlobalSegment.end_sec s /\
     GlobalSegment.end_sec s <=
       ChunkMapping.original_video_start_time mapping +
       ChunkMapping.chunk_end_time mapping) /\
  normalize_to_original_time
    (ChunkMapping.mk 100 130 0 30 0 "chunk.mp4")
    [HighlightMoment.mk (-5) 35 "goal"] =
  [GlobalSegment.mk 100 130 "goal"].
Proof.
  intro Hce. unfold normalize_to_original_time, normalize_spec.
  split; [|split].
  - rewrite normalize_fold. simpl.
    induction moments as [|m ms IH]; simpl; [constructor|].
    apply Forall2_app; [|exact IH].
    apply normalize_moment_clamp. exact Hce.
  - intros s. rewrite normalize_fold. simpl. rewrite in_flat_map.
    intros [m [_ Hs]].
    destruct (normalize_moment_bounds _ _ _ _ Hs) as (H1 & H2 & H3).
    repeat split; [exact H1 | lra | exact H3].
  - reflexivity.
Qed.

Lemma normalize_to_original_time_clamps_witness :
  Forall2 seg_equiv
    (normalize_to_original_time (ChunkMapping.mk 82 100 0 18 1 "chunk_0001.mp4")
       [HighlightMoment.mk 1 (7 # 2) "goal"; HighlightMoment.mk 17 25 "save";
        HighlightMoment.mk 20 30 "late"])
    (normalize_spec (ChunkMapping.mk 82 100 0 18 1 "chunk_0001.mp4")
       [HighlightMoment.mk 1 (7 # 2) "goal"; HighlightMoment.mk 17 25 "save";
        HighlightMoment.mk 20 30 "late"]).
Proof.
  apply (normalize_to_original_time_clamps
           (ChunkMapping.mk 82 100 0 18 1 "chunk_0001.mp4")
           [HighlightMoment.mk 1 (7 # 2) "goal"; HighlightMoment.mk 17 25 "save";
            HighlightMoment.mk 20 30 "late"]).
  simpl. unfold Qle. simpl. lia.
Defined.

(* ------------------------------------------------------------------ *)
(** ** Segment merger *)

Lemma key_lt_false (a b : GlobalSegment.t) : key_lt b a = false -> key_le a b.
Proof.
  unfold key_lt, key_le.
  destruct (Qeq_bool _ _) eqn:E1.
  - apply Qeq_bool_iff in E1.
    destruct (Qeq_bool (GlobalSegment.end_sec b) _) eqn:E2.
    + apply Qeq_bool_iff in E2. intros _. right. split; lra.
    + destruct (Qltb_spec (GlobalSegment.end_sec b) (GlobalSegment.end_sec a));
        [discriminate|]. intros _. right. split; lra.
  - apply Qeq_bool_neq in E1.
    destruct (Qltb_spec (GlobalSegment.start_sec b) (GlobalSegment.start_sec a));
      [discriminate|]. intros _. left. lra.
Qed.

Lemma key_lt_true (a b : GlobalSegment.t) : key_lt a b = true -> key_le a b.
Proof.
  unfold key_lt, key_le.
  destruct (Qeq_bool _ _) eqn:E1.
  - apply Qeq_bool_iff in E1.
    destruct (Qeq_bool (GlobalSegment.end_sec a) _); [discriminate|].
    destruct (Qltb_spec (GlobalSegment.end_sec a) (GlobalSegment.end_sec b));
      [|discriminate]. intros _. right. split; lra.
  - destruct (Qltb_spec (GlobalSegment.start_sec a) (GlobalSegment.start_sec b));
      [|discriminate]. intros _. now left.
Qed.

Lemma key_le_lt_false (a b : GlobalSegment.t) : key_le a b -> key_lt b a = false.
Proof.
  unfold key_lt, key_le. intros H.
  destruct (Qeq_bool _ _) eqn:E1.
  - apply Qeq_bool_iff in E1.
    destruct (Qeq_bool (GlobalSegment.end_sec b) _) eqn:E2; [reflexivity|].
    destruct (Qltb_spec (GlobalSegment.end_sec b) (GlobalSegment.end_sec a));
      [lra | reflexivity].
  - apply Qeq_bool_neq in E1.
    destruct (Qltb_spec (GlobalSegment.start_sec b) (GlobalSegment.start_sec a));
      [|reflexivity].
    destruct H as [H|[H _]]; [lra|]. exfalso. apply E1. lra.
Qed.

Lemma key_le_trans (a b c : GlobalSegment.t) :
  key_le a b -> key_le b c -> key_le a c.
Proof.
  unfold key_le. intros [H1|[H1 H1']] [H2|[H2 H2']].
  - left; lra.
  - left; lra.
  - left; lra.
  - right; split; lra.
Qed.

Lemma key_le_start (a b : GlobalSegment.t) :
  key_le a b -> GlobalSegment.start_sec a <= GlobalSegment.start_sec b.
Proof. unfold key_le. intros [H|[H _]]; lra. Qed.

(** *** The stable insertion sort *)

Lemma insert_by_in {A : Type} (lt : A -> A -> bool) (x z : A) (l : list A) :
  In z (insert_by lt x l) <-> z = x \/ In z l.
Proof.
  induction l as [|y l IH]; simpl.
  - intuition.
  - destruct (lt y x); simpl; rewrite ?IH; intuition.
Qed.

Lemma sorted_in {A : Type} (lt : A -> A -> bool) (z : A) (l : list A) :
  In z (sorted lt l) <-> In z l.
Proof.
  induction l as [|x l IH]; simpl; [tauto|].
  rewrite insert_by_in, IH. intuition.
Qed.

Lemma insert_by_sorted (x : GlobalSegment.t) (l : list GlobalSegment.t) :
  StronglySorted key_le l -> StronglySorted key_le (insert_by key_lt x l).
Proof.
  induction 1 as [|y l Hs IH Hy]; simpl.
  - repeat constructor.
  - destruct (key_lt y x) eqn:E.
    + constructor; [exact IH|].
      apply Forall_forall. intros z Hz. apply insert_by_in in Hz.
      destruct Hz as [->|Hz]; [now apply key_lt_true|].
      rewrite Forall_forall in Hy. now apply Hy.
    + apply key_lt_false in E.
      constructor; [now constructor|].
      constructor; [exact E|].
      eapply Forall_impl; [|exact Hy].
      intros z Hz. eapply key_le_trans; eauto.
Qed.

Lemma sorted_StronglySorted (l : list GlobalSegment.t) :
  StronglySorted key_le (sorted key_lt l).
Proof.
  induction l as [|x l IH]; simpl; [constructor|].
  now apply insert_by_sorted.
Qed.

Lemma sorted_fixpoint (l : list GlobalSegment.t) :
  StronglySorted key_le l -> sorted key_lt l = l.
Proof.
  induction 1 as [|x l Hs IH Hx]; simpl; [reflexivity|].
  rewrite IH. destruct l as [|y l']; [reflexivity|]. simpl.
  inversion Hx; subst. now rewrite key_le_lt_false.
Qed.

(** *** The sweep *)

Section Sweep.
Variable gap_sec : Q.

Local Abbreviation extend last s :=
  (GlobalSegment.mk (GlobalSegment.start_sec last)
     (py_max (GlobalSegment.end_sec last) (GlobalSegment.end_sec s))
     (GlobalSegment.reason last)).

Lemma merge_loop_sweep (rest : list GlobalSegment.t) :
  forall front last,
    (let (front', last') := fold_left (merge_step gap_sec) rest (front, last) in
     front' ++ [last']) = front ++ sweep gap_sec last rest.
Proof.
  induction rest as [|s rest IH]; intros front last; simpl; [reflexivity|].
  destruct (_ <=? _).
  - apply IH.
  - rewrite IH, <- app_assoc. reflexivity.
Qed.

Lemma merge_is_sweep (segments : list GlobalSegment.t) :
  merge_overlapping_or_adjacent segments gap_sec =
  match sorted key_lt segments with
  | [] => []
  | first :: rest => sweep gap_sec first rest
  end.
Proof.
  unfold merge_overlapping_or_adjacent.
  destruct segments as [|s0 segments]; [reflexivity|].
  destruct (sorted key_lt (s0 :: segments)) as [|first rest]; [reflexivity|].
  apply (merge_loop_sweep rest [] first).
Qed.

(** The output begins with a segment that starts where [last] starts. *)
Lemma sweep_head (rest : list GlobalSegment.t) :
  forall last, exists hd tl,
    sweep gap_sec last rest = hd :: tl /\
    GlobalSegment.start_sec hd = GlobalSegment.start_sec last /\
    GlobalSegment.end_sec last <= GlobalSegment.end_sec hd.
Proof.
  induction rest as [|s rest IH]; intros last; simpl.
  - exists last, []. repeat split; lra.
  - destruct (_ <=? _).
    + destruct (IH (extend last s)) as (hd & tl & E & Hs & He).
      exists hd, tl. split; [exact E|]. split; [exact Hs|].
      simpl in He. destruct (py_max_cases (GlobalSegment.end_sec last)
                               (GlobalSegment.end_sec s)) as [[? M]|[? M]];
        rewrite M in He; lra.
    + exists last, (sweep gap_sec s rest). repeat split; lra.
Qed.

(** Consecutive output segments are more than [gap_sec] apart. *)
Lemma sweep_beyond_gap (rest : list GlobalSegment.t) :
  forall last, Sorted (beyond_gap gap_sec) (sweep gap_sec last rest).
Proof.
  induction rest as [|s rest IH]; intros last; simpl.
  - repeat constructor.
  - destruct (Qleb_spec (GlobalSegment.start_sec s)
                        (GlobalSegment.end_sec last + gap_sec)) as [H|H].
    + apply IH.
    + constructor; [apply IH|].
      destruct (sweep_head rest s) as (hd & tl & E & Hs & _).
      rewrite E. constructor. unfold beyond_gap. rewrite Hs. lra.
Qed.

Lemma sweep_valid (rest : list GlobalSegment.t) :
  forall last, seg_valid last -> Forall seg_valid rest ->
    Forall seg_valid (sweep gap_sec last rest).
Proof.
  induction rest as [|s rest IH]; intros last Hl Hr; simpl.
  - now constructor.
  - inversion Hr; subst. destruct (_ <=? _).
    + apply IH; [|assumption]. unfold seg_valid in *. simpl.
      destruct (py_max_cases (GlobalSegment.end_sec last)
                  (GlobalSegment.end_sec s)) as [[? M]|[? M]]; rewrite M; lra.
    + constructor; [assumption|]. now apply IH.
Qed.

(** A list whose neighbours are all beyond the gap is left as it is. *)
Lemma sweep_fixpoint (rest : list GlobalSegment.t) :
  forall last, Sorted (beyond_gap gap_sec) (last :: rest) ->
    sweep gap_sec last rest = last :: rest.
Proof.
  induction rest as [|s rest IH]; intros last H; simpl; [reflexivity|].
  inversion H as [|? ? Hs Hh]; subst. inversion Hh; subst.
  destruct (Qleb_spec (GlobalSegment.start_sec s)
                      (GlobalSegment.end_sec last + gap_sec)) as [H'|H'].
  - unfold beyond_gap in *. lra.
  - now rewrite IH.
Qed.

Lemma sweep_lower_bound (a : GlobalSegment.t) (rest : list GlobalSegment.t) :
  forall last, key_le a last -> Forall (key_le a) rest ->
    Forall (key_le a) (sweep gap_sec last rest).
Proof.
  induction rest as [|s rest IH]; intros last Hl Hr; simpl.
  - now constructor.
  - inversion Hr; subst. destruct (_ <=? _).
    + apply IH; [|assumption]. unfold key_le in *. simpl.
      destruct (py_max_cases (GlobalSegment.end_sec last)
                  (GlobalSegment.end_sec s)) as [[? M]|[? M]]; rewrite M;
        destruct Hl as [?|[? ?]]; [left; lra | right; split; lra
                                  | left; lra | right; split; lra].
    + constructor; [assumption|]. now apply IH.
Qed.

(** The sweep of a key-sorted list is key-sorted. *)
Lemma sweep_key_sorted (rest : list GlobalSegment.t) :
  forall last, StronglySorted key_le (last :: rest) ->
    StronglySorted key_le (sweep gap_sec last rest).
Proof.
  induction rest as [|s rest IH]; intros last H; simpl.
  - exact H.
  - inversion H as [|? ? Hs Hl]; subst.
    inversion Hs as [|? ? Hs' Hsr]; subst.
    inversion Hl as [|? ? Hls Hlr]; subst.
    destruct (_ <=? _).
    + apply IH. constructor; [assumption|].
      rewrite Forall_forall in *. intros z Hz.
      specialize (Hsr z Hz). specialize (Hlr z Hz).
      unfold key_le in *. simpl.
      destruct (py_max_cases (GlobalSegment.end_sec last)
                  (GlobalSegment.end_sec s)) as [[? M]|[? M]]; rewrite M;
        destruct Hlr as [?|[? ?]]; try (left; lra);
        destruct Hsr as [?|[? ?]]; destruct Hls as [?|[? ?]];
        try (left; lra); right; split; lra.
    + constructor; [now apply IH|].
      now apply sweep_lower_bound.
Qed.

(** Every swept segment lies inside an output segment. *)
Lemma sweep_covers (rest : list GlobalSegment.t) :
  forall last,
    Forall (fun s => GlobalSegment.start_sec last <= GlobalSegment.start_sec s) rest ->
    StronglySorted key_le rest ->
    forall s, In s (last :: rest) ->
      exists o, In o (sweep gap_sec last rest) /\ covered_by s o.
Proof.
  induction rest as [|s' rest IH]; intros last Hl Hs s Hin; simpl.
  - destruct Hin as [<-|[]]. exists last. split; [now left|].
    unfold covered_by; lra.
  - inversion Hl as [|? ? Hls' Hlr]; subst.
    inversion Hs as [|? ? Hsr Hs'r]; subst.
    destruct (_ <=? _).
    + assert (Hcov : forall x, In x (extend last s' :: rest) ->
                exists o, In o (sweep gap_sec (extend last s') rest) /\
                          covered_by x o).
      { apply IH; assumption. }
      destruct (Hcov (extend last s') (or_introl eq_refl)) as (o & Ho & Hc).
      unfold covered_by in Hc. simpl in Hc.
      destruct (py_max_cases (GlobalSegment.end_sec last)
                  (GlobalSegment.end_sec s')) as [[? M]|[? M]];
        rewrite M in Hc;
        (destruct Hin as [<-|[<-|Hin]];
         [exists o; split; [exact Ho|unfold covered_by; lra]
         |exists o; split; [exact Ho|unfold covered_by; lra]
         |apply Hcov; now right]).
    + destruct Hin as [<-|Hin].
      * exists last. split; [now left|]. unfold covered_by; lra.
      * destruct (IH s') with (s := s) as (o & Ho & Hc); try assumption.
        { eapply Forall_impl; [|exact Hs'r]. intros z. apply key_le_start. }
        exists o. split; [now right | exact Hc].
Qed.

(** Every output segment starts where some swept segment starts. *)
Lemma sweep_starts (rest : list GlobalSegment.t) :
  forall last o, In o (sweep gap_sec last rest) ->
    exists s, In s (last :: rest) /\
              GlobalSegment.start_sec o = GlobalSegment.start_sec s.
Proof.
  induction rest as [|s' rest IH]; intros last o; simpl.
  - intros [<-|[]]. exists last. split; [now left | reflexivity].
  - destruct (_ <=? _).
    + intros Ho. destruct (IH _ _ Ho) as (s & [<-|Hs] & E).
      * exists last. split; [now left | exact E].
      * exists s. split; [now right; right | exact E].
    + intros [<-|Ho].
      * exists last. split; [now left | reflexivity].
      * destruct (IH _ _ Ho) as (s & Hs & E).
        exists s. split; [now right | exact E].
Qed.
End Sweep.

Lemma Sorted_neighbours {A : Type} (R : A -> A -> Prop) (front back : list A)
    (a b : A) :
  Sorted R (front ++ a :: b :: back) -> R a b.
Proof.
  induction front as [|x front IH]; simpl; intros H.
  - inversion H as [|? ? _ Hh]; subst. now inversion Hh.
  - inversion H; subst. now apply IH.
Qed.

(** With valid segments and a non-negative tolerance, neighbours beyond
    the gap put every later segment after the end of every earlier one. *)
Lemma beyond_gap_all_later (gap_sec : Q) (l : list GlobalSegment.t) :
  0 <= gap_sec ->
  forall a, Sorted (beyond_gap gap_sec) (a :: l) -> Forall seg_valid l ->
    Forall (fun b => GlobalSegment.end_sec a + gap_sec < GlobalSegment.start_sec b) l.
Proof.
  intros Hg. induction l as [|b l IH]; intros a Hs Hv; constructor.
  - inversion Hs as [|? ? _ Hh]; subst. inversion Hh; subst.
    unfold beyond_gap in *. lra.
  - inversion Hs as [|? ? Hs' Hh]; subst. inversion Hh as [|? ? Hab]; subst.
    inversion Hv as [|? ? Hb Hv']; subst.
    eapply Forall_impl; [|apply (IH b Hs' Hv')].
    intros c Hc. unfold beyond_gap, seg_valid in *. simpl in Hc. lra.
Qed.

Lemma merge_valid (segments : list GlobalSegment.t) (gap_sec : Q) :
  Forall seg_valid segments ->
  Forall seg_valid (merge_overlapping_or_adjacent segments gap_sec).
Proof.
  intros Hv. rewrite merge_is_sweep.
  assert (Hs : Forall seg_valid (sorted key_lt segments)).
  { rewrite Forall_forall in *. intros x Hx. apply Hv. now apply sorted_in in Hx. }
  destruct (sorted key_lt segments) as [|first rest]; [constructor|].
  inversion Hs; subst. now apply sweep_valid.
Qed.

Lemma merge_beyond_gap (segments : list GlobalSegment.t) (gap_sec : Q) :
  Sorted (beyond_gap gap_sec) (merge_overlapping_or_adjacent segments gap_sec).
Proof.
  rewrite merge_is_sweep.
  destruct (sorted key_lt segments) as [|first rest]; [constructor|].
  apply sweep_beyond_gap.
Qed.

Lemma merge_key_sorted (segments : list GlobalSegment.t) (gap_sec : Q) :
  StronglySorted key_le (merge_overlapping_or_adjacent segments gap_sec).
Proof.
  rewrite merge_is_sweep.
  pose proof (sorted_StronglySorted segments) as Hs.
  destruct (sorted key_lt segments) as [|first rest]; [constructor|].
  now apply sweep_key_sorted.
Qed.

(** C1. For segments with [end > start] and a gap tolerance [>= 0], the
    output of the merger is sorted ascending by start, pairwise
    non-overlapping (every earlier segment ends before every later one
    starts), and for any two consecutive output segments
    [next.start - previous.end] is strictly greater than the tolerance. *)
Theorem merge_sorted_disjoint_beyond_gap
    (segments : list GlobalSegment.t) (gap_sec : Q) :
  Forall seg_valid segments ->
  0 <= gap_sec ->
  let out := merge_overlapping_or_adjacent segments gap_sec in
  StronglySorted starts_before out /\
  ForallOrdPairs ends_before out /\
  (forall front a b back,
     out = front ++ a :: b :: back ->
     gap_sec < GlobalSegment.start_sec b - GlobalSegment.end_sec a).
Proof.
  intros Hv Hg out.
  pose proof (merge_valid segments gap_sec Hv) as Hov.
  pose proof (merge_beyond_gap segments gap_sec) as Hos.
  fold out in Hov, Hos. clearbody out.
  split; [|split].
  - induction out as [|a out IH]; [constructor|].
    inversion Hov as [|? ? Ha Hov']; subst.
    pose proof (beyond_gap_all_later gap_sec out Hg a Hos Hov') as Hall.
    inversion Hos; subst.
    constructor; [now apply IH|].
    eapply Forall_impl; [|exact Hall].
    intros b Hb. unfold starts_before, seg_valid in *. simpl in Hb. lra.
  - induction out as [|a out IH]; [constructor|].
    inversion Hov as [|? ? Ha Hov']; subst.
    pose proof (beyond_gap_all_later gap_sec out Hg a Hos Hov') as Hall.
    inversion Hos; subst.
    constructor; [|now apply IH].
    eapply Forall_impl; [|exact Hall].
    intros b Hb. unfold ends_before. simpl in Hb. lra.
  - intros front a b back E. subst out.
    apply (Sorted_neighbours _ _ _ _ _ Hos).
Qed.

Lemma merge_sorted_disjoint_beyond_gap_witness :
  let out :=
    merge_overlapping_or_adjacent
      [GlobalSegment.mk 25 30 "c"; GlobalSegment.mk 0 10 "a";
       GlobalSegment.mk 9 20 "b"; GlobalSegment.mk 40 (83 # 2) "d"] 2 in
  StronglySorted starts_before out /\
  ForallOrdPairs ends_before out /\
  (forall front a b back,
     out = front ++ a :: b :: back ->
     2 < GlobalSegment.start_sec b - GlobalSegment.end_sec a).
Proof.
  apply (merge_sorted_disjoint_beyond_gap
           [GlobalSegment.mk 25 30 "c"; GlobalSegment.mk 0 10 "a";
            GlobalSegment.mk 9 20 "b"; GlobalSegment.mk 40 (83 # 2) "d"] 2).
  - repeat constructor.
  - unfold Qle. simpl. lia.
Defined.

(** C8. The merger is idempotent: merging its own output, with the same
    gap tolerance, returns that output unchanged, element for element.
    (No condition on the input or on the tolerance is needed; in
    particular it holds for every tolerance [>= 0].) *)
Theorem merge_idempotent (segments : list GlobalSegment.t) (gap_sec : Q) :
  merge_overlapping_or_adjacent
    (merge_overlapping_or_adjacent segments gap_sec) gap_sec =
  merge_overlapping_or_adjacent segments gap_sec.
Proof.
  pose proof (merge_key_sorted segments gap_sec) as Hk.
  pose proof (merge_beyond_gap segments gap_sec) as Hg.
  set (out := merge_overlapping_or_adjacent segments gap_sec) in *.
  clearbody out.
  rewrite merge_is_sweep, (sorted_fixpoint out Hk).
  destruct out as [|first rest]; [reflexivity|].
  now apply sweep_fixpoint.
Qed.

(** C10. The merger never loses coverage: the interval [[start, end]] of
    every input segment is contained in the interval of some output
    segment, and the start of every output segment is the start of some
    input segment.  (This needs no condition on the tolerance; in
    particular it holds for every tolerance [>= 0].) *)
Theorem merge_keeps_coverage (segments : list GlobalSegment.t) (gap_sec : Q) :
  let out := merge_overlapping_or_adjacent segments gap_sec in
  (forall s, In s segments -> exists o, In o out /\ covered_by s o) /\
  (forall o, In o out ->
     exists s, In s segments /\
               GlobalSegment.start_sec o = GlobalSegment.start_sec s).
Proof.
  intros out. subst out. rewrite merge_is_sweep.
  pose proof (sorted_StronglySorted segments) as Hs.
  pose proof (fun z => sorted_in key_lt z segments) as Hin.
  destruct (sorted key_lt segments) as [|first rest].
  - split.
    + intros s Hs'. apply Hin in Hs'. contradiction.
    + intros o [].
  - inversion Hs as [|? ? Hr Hf]; subst. split.
    + intros s Hs'. apply Hin in Hs'.
      apply sweep_covers; try assumption.
      eapply Forall_impl; [|exact Hf]. intros z. apply key_le_start.
    + intros o Ho. destruct (sweep_starts _ _ _ _ Ho) as (s & Hs' & E).
      exists s. split; [now apply Hin | exact E].
Qed.

(* ------------------------------------------------------------------ *)
(** ** Duration capper *)

Section Capper.
Variable max_duration_sec : Q.

Lemma run_total_app (l1 l2 : list GlobalSegment.t) (total : Q) :
  run_total total (l1 ++ l2) = run_total (run_total total l1) l2.
Proof. unfold run_total. apply fold_left_app. Qed.

(** The loop, started with running total [total] and result [result]:
    it appends a prefix [whole] of the segments, each of which fitted
    when it was reached, and at the first segment that does not fit a
    truncated copy when more than a second remains. *)
Lemma cap_loop_prefix (segments : list GlobalSegment.t) :
  forall total result,
  exists whole later extra,
    segments = whole ++ later /\
    cap_loop max_duration_sec total result segments = result ++ whole ++ extra /\
    (forall k, (0 < k <= List.length whole)%nat ->
       run_total total (firstn k whole) <= max_duration_sec) /\
    match later with
    | [] => extra = []
    | s :: _ =>
        max_duration_sec < run_total total whole + seg_duration s /\
        extra =
          if 1 <? max_duration_sec - run_total total whole
          then [truncated s (max_duration_sec - run_total total whole)]
          else []
    end.
Proof.
  induction segments as [|s segments IH]; intros total result.
  - exists [], [], []. simpl. repeat split.
    + now rewrite app_nil_r.
    + intros k Hk. lia.
  - simpl.
    destruct (Qleb_spec
                (total + (GlobalSegment.end_sec s - GlobalSegment.start_sec s))
                max_duration_sec) as [Hfit|Hfit].
    + destruct (IH (total + (GlobalSegment.end_sec s - GlobalSegment.start_sec s))
                   (result ++ [s]))
        as (whole & later & extra & E1 & E2 & Hk & Hl).
      exists (s :: whole), later, extra. repeat split.
      * now rewrite E1.
      * rewrite E2, <- app_assoc. reflexivity.
      * intros k Hk'. destruct k as [|k]; [lia|]. simpl.
        destruct k as [|k]; [exact Hfit|].
        apply Hk. simpl in Hk'. lia.
      * exact Hl.
    + exists [], (s :: segments), 
        (if 1 <? max_duration_sec - total
         then [truncated s (max_duration_sec - total)] else []).
      simpl. repeat split.
      * destruct (_ <? _); [reflexivity | now rewrite app_nil_r].
      * intros k Hk. lia.
      * unfold seg_duration. lra.
Qed.
End Capper.



(** With a negative budget nothing is selected, and the total duration 0
    of the empty result exceeds the budget. *)
Lemma cap_total_duration_negative_budget :
  cap_total_duration [GlobalSegment.mk 0 10 "a"; GlobalSegment.mk 10 200 "b"] (-5)
    = [] /\
  ~ (total_duration
       (cap_total_duration
          [GlobalSegment.mk 0 10 "a"; GlobalSegment.mk 10 200 "b"] (-5))
     <= -5).
Proof.
  split; [reflexivity|]. vm_compute. intro H. apply H. reflexivity.
Qed.


(* ------------------------------------------------------------------ *)
(** ** Window tiler *)

Section ChunkLoop.
Variables duration_sec chunk_duration_sec step : Q.

Lemma chunk_loop_acc (fuel : nat) :
  forall start chunks,
    chunk_loop fuel duration_sec chunk_duration_sec step start chunks =
    option_map (app chunks)
      (chunk_loop fuel duration_sec chunk_duration_sec step start []).
Proof.
  induction fuel as [|fuel IH]; intros start chunks; simpl; [reflexivity|].
  destruct (_ <? _); simpl; [|now rewrite app_nil_r].
  destruct (_ <=? _); simpl; [reflexivity|].
  rewrite IH, (IH _ [_]).
  destruct (chunk_loop fuel _ _ _ _ []); simpl; [|reflexivity].
  now rewrite <- app_assoc.
Qed.

Lemma inject_Z_succ (n : nat) :
  inject_Z (Z.of_nat (S n)) == inject_Z (Z.of_nat n) + 1.
Proof.
  rewrite Nat2Z.inj_succ. unfold Z.succ. rewrite inject_Z_plus. reflexivity.
Qed.

(** With a positive step the loop exits: [fuel] steps that reach the
    end of the video leave it at most one more test to make. *)
Lemma chunk_loop_terminates (fuel : nat) :
  0 < step ->
  forall start,
    duration_sec - start <= inject_Z (Z.of_nat fuel) * step ->
    exists chunks,
      chunk_loop (S fuel) duration_sec chunk_duration_sec step start [] =
        Some chunks.
Proof.
  intros Hstep. induction fuel as [|fuel IH]; intros start Hfuel.
  - change (inject_Z (Z.of_nat 0)) with 0 in Hfuel. simpl.
    destruct (Qltb_spec start duration_sec); [lra|]. now eexists.
  - rewrite inject_Z_succ in Hfuel.
    change (chunk_loop (S (S fuel)) duration_sec chunk_duration_sec step start [])
      with (if start <? duration_sec then
              let end_ := py_min (start + chunk_duration_sec) duration_sec in
              if duration_sec <=? end_ then Some ([] ++ [(start, end_)])
              else chunk_loop (S fuel) duration_sec chunk_duration_sec step
                     (start + step) ([] ++ [(start, end_)])
            else Some []).
    destruct (_ <? _); [|now eexists]. cbv zeta.
    destruct (_ <=? _); [now eexists|].
    rewrite chunk_loop_acc.
    destruct (IH (start + step)) as (chunks & ->); [lra|].
    now eexists.
Qed.

Lemma chunk_fuel_reaches_end :
  0 < step ->
  duration_sec - 0 <=
    inject_Z (Z.of_nat (Z.to_nat (Qceiling (duration_sec / step)))) * step.
Proof.
  intros Hs.
  pose proof (Qle_ceiling (duration_sec / step)) as Hc.
  assert (Hz : inject_Z (Qceiling (duration_sec / step)) <=
               inject_Z (Z.of_nat (Z.to_nat (Qceiling (duration_sec / step))))).
  { rewrite <- Zle_Qle. lia. }
  assert (Hdiv : duration_sec / step * step == duration_sec).
  { rewrite Qmult_comm. apply Qmult_div_r. lra. }
  assert (Hmul : duration_sec / step * step <=
                 inject_Z (Z.of_nat (Z.to_nat (Qceiling (duration_sec / step))))
                 * step).
  { apply Qmult_le_compat_r; lra. }
  lra.
Qed.
End ChunkLoop.

(** The iteration budget of [build_chunks_with_overlap] is never used up:
    once [overlap_sec < chunk_duration_sec] has been checked the step is
    positive. *)
Lemma build_chunks_within_fuel (duration_sec chunk_duration_sec overlap_sec : Q) :
  build_chunks_with_overlap duration_sec chunk_duration_sec overlap_sec
    <> Raise RecursionError.
Proof.
  unfold build_chunks_with_overlap.
  destruct (Qleb_spec chunk_duration_sec overlap_sec) as [?|Hlt]; [discriminate|].
  assert (Hs : 0 < chunk_duration_sec - overlap_sec) by lra.
  unfold chunk_fuel.
  destruct (chunk_loop_terminates duration_sec chunk_duration_sec _ _ Hs 0
              (chunk_fuel_reaches_end duration_sec _ Hs)) as (chunks & ->).
  discriminate.
Qed.

Section Tiler.
Variables duration_sec chunk_duration_sec overlap_sec : Q.
Hypothesis overlap_nonneg : 0 <= overlap_sec.
Hypothesis overlap_small : overlap_sec < chunk_duration_sec.

Local Abbreviation step := (chunk_duration_sec - overlap_sec).

(** The loop exits within [fuel] iterations once [fuel] steps reach the
    end of the video, and its output is a tiling. *)
Lemma chunk_loop_tiling (fuel : nat) :
  forall start,
    start < duration_sec ->
    duration_sec - start <= inject_Z (Z.of_nat fuel) * step ->
    exists chunks,
      chunk_loop fuel duration_sec chunk_duration_sec step start [] =
        Some chunks /\
      tiling duration_sec chunk_duration_sec step start chunks.
Proof.
  induction fuel as [|fuel IH]; intros start Hlt Hfuel.
  - change (inject_Z (Z.of_nat 0)) with 0 in Hfuel. lra.
  - simpl. destruct (Qltb_spec start duration_sec) as [_|?]; [|lra].
    destruct (py_min_cases (start + chunk_duration_sec) duration_sec)
      as [[Hm ->]|[Hm ->]].
    + destruct (Qleb_spec duration_sec duration_sec) as [_|?]; [|lra].
      eexists. split; [reflexivity|]. constructor; lra.
    + destruct (Qleb_spec duration_sec (start + chunk_duration_sec)) as [Hd|Hd].
      * eexists. split; [reflexivity|]. constructor; lra.
      * rewrite chunk_loop_acc.
        destruct (IH (start + step)) as (chunks & E & Ht).
        { lra. }
        { rewrite inject_Z_succ in Hfuel. lra. }
        rewrite E. simpl. eexists. split; [reflexivity|].
        constructor; [reflexivity | lra | exact Ht].
Qed.

Lemma chunk_fuel_enough :
  0 < duration_sec ->
  duration_sec - 0 <=
    inject_Z (Z.of_nat (chunk_fuel duration_sec step)) * step.
Proof.
  intros Hd. assert (Hs : 0 < step) by lra.
  unfold chunk_fuel. rewrite inject_Z_succ.
  pose proof (chunk_fuel_reaches_end duration_sec step Hs). lra.
Qed.

(** *** What a tiling guarantees *)

Lemma tiling_covers (start : Q) (chunks : list (Q * Q)) :
  tiling duration_sec chunk_duration_sec step start chunks ->
  forall t, start <= t -> t < duration_sec -> Exists (in_window t) chunks.
Proof.
  induction 1 as [start end_ Hs He Hc | start end_ chunks He Hd Ht IH];
    intros t Hlo Hhi.
  - constructor. unfold in_window. simpl. lra.
  - destruct (Qlt_le_dec t end_) as [Hin|Hout].
    + constructor. unfold in_window. simpl. lra.
    + apply Exists_cons_tl. apply IH; lra.
Qed.

Lemma tiling_head (start : Q) (chunks : list (Q * Q)) :
  tiling duration_sec chunk_duration_sec step start chunks ->
  exists end_ rest, chunks = (start, end_) :: rest /\
    end_ <= start + chunk_duration_sec /\
    (end_ == start + chunk_duration_sec \/ end_ == duration_sec) /\
    end_ <= duration_sec /\ start < duration_sec.
Proof.
  destruct 1 as [start end_ Hs He Hc | start end_ chunks He Hd Ht].
  - exists end_, []. repeat split; lra.
  - exists end_, chunks. repeat split; lra.
Qed.

(** With exact sums every pair of neighbours overlaps by [overlap_sec]. *)
Lemma tiling_overlap (start : Q) (chunks : list (Q * Q)) :
  tiling duration_sec chunk_duration_sec step start chunks ->
  Sorted (fun w1 w2 => overlap_of w1 w2 == overlap_sec) chunks.
Proof.
  induction 1 as [start end_ Hs He Hc | start end_ chunks He Hd Ht IH].
  - repeat constructor.
  - constructor; [exact IH|].
    destruct (tiling_head _ _ Ht) as (e2 & rest & -> & H1 & H2 & H3 & H4).
    constructor. unfold overlap_of. simpl.
    assert (Hmin : Qmin end_ e2 == end_).
    { apply Q.min_l. destruct H2; lra. }
    assert (Hmax : Qmax start (start + step) == start + step).
    { apply Q.max_r. lra. }
    rewrite Hmin, Hmax. lra.
Qed.

Lemma tiling_staggered (start : Q) (chunks : list (Q * Q)) :
  tiling duration_sec chunk_duration_sec step start chunks ->
  Sorted (fun w1 w2 => fst w1 <= fst w2 /\ fst w2 <= snd w1 /\
                       snd w1 <= snd w2) chunks.
Proof.
  induction 1 as [start end_ Hs He Hc | start end_ chunks He Hd Ht IH].
  - repeat constructor.
  - constructor; [exact IH|].
    destruct (tiling_head _ _ Ht) as (e2 & rest & -> & H1 & H2 & H3 & H4).
    constructor. simpl. repeat split; lra.
Qed.

Lemma tiling_recurrence (start : Q) (chunks : list (Q * Q)) :
  tiling duration_sec chunk_duration_sec step start chunks ->
  Sorted (fun w1 w2 => fst w2 == fst w1 + step /\
                       snd w1 == fst w1 + chunk_duration_sec) chunks.
Proof.
  induction 1 as [start end_ Hs He Hc | start end_ chunks He Hd Ht IH].
  - repeat constructor.
  - constructor; [exact IH|].
    destruct (tiling_head _ _ Ht) as (e2 & rest & -> & _).
    constructor. simpl. split; [reflexivity | exact He].
Qed.

Lemma tiling_last_window (start : Q) (chunks : list (Q * Q)) :
  tiling duration_sec chunk_duration_sec step start chunks ->
  exists init last,
    chunks = init ++ [last] /\ snd last == duration_sec /\
    Forall (fun w => snd w < duration_sec) init.
Proof.
  induction 1 as [start end_ Hs He Hc | start end_ chunks He Hd Ht IH].
  - exists [], (start, end_). repeat split; [exact He | constructor].
  - destruct IH as (init & last & -> & Hl & Hi).
    exists ((start, end_) :: init), last. repeat split; [exact Hl|].
    constructor; [exact Hd | exact Hi].
Qed.

Lemma build_chunks_tiling :
  0 < duration_sec ->
  exists chunks,
    build_chunks_with_overlap duration_sec chunk_duration_sec overlap_sec =
      Ok chunks /\
    tiling duration_sec chunk_duration_sec step 0 chunks.
Proof.
  intros Hd. unfold build_chunks_with_overlap.
  destruct (Qleb_spec chunk_duration_sec overlap_sec) as [?|_]; [lra|].
  destruct (chunk_loop_tiling (chunk_fuel duration_sec step) 0 Hd
              (chunk_fuel_enough Hd)) as (chunks & E & Ht).
  rewrite E. exists chunks. split; [reflexivity | exact Ht].
Qed.
End Tiler.

(** C2 (amended). For [duration > 0], [windowLen > 0] and
    [0 <= overlap < windowLen] the tiler returns windows whose ranges
    [[start, end)] cover [[0, duration)] with no gaps; consecutive
    windows overlap: the later one starts [windowLen - overlap] after
    the earlier one starts, which is where the earlier one ends or
    before, the earlier one is [windowLen] long, and the later one
    ends no earlier; and exactly one window, the last, has its end
    equal to the duration - all windows before it end earlier.  The two
    equations hold of the sums as the loop computes them; that the
    difference [end - next start] is [overlap] itself holds only of
    exact sums ([build_chunks_overlap_rounds]). *)
Theorem build_chunks_with_overlap_tiles
    (duration_sec chunk_duration_sec overlap_sec : Q) :
  0 < duration_sec ->
  0 < chunk_duration_sec ->
  0 <= overlap_sec ->
  overlap_sec < chunk_duration_sec ->
  exists chunks,
    build_chunks_with_overlap duration_sec chunk_duration_sec overlap_sec =
      Ok chunks /\
    (forall t, 0 <= t -> t < duration_sec -> Exists (in_window t) chunks) /\
    (forall front w1 w2 back,
       chunks = front ++ w1 :: w2 :: back ->
       (fst w1 <= fst w2 /\ fst w2 <= snd w1 /\ snd w1 <= snd w2) /\
       fst w2 == fst w1 + (chunk_duration_sec - overlap_sec) /\
       snd w1 == fst w1 + chunk_duration_sec) /\
    (exists init last,
       chunks = init ++ [last] /\ snd last == duration_sec /\
       Forall (fun w => snd w < duration_sec) init).
Proof.
  intros Hd _ Ho Hc.
  destruct (build_chunks_tiling duration_sec chunk_duration_sec overlap_sec
              Ho Hc Hd) as (chunks & E & Ht).
  exists chunks. split; [exact E|]. split; [|split].
  - eapply tiling_covers; eauto.
  - intros front w1 w2 back ->. split.
    + pose proof (tiling_staggered _ _ _ Ho Hc _ _ Ht) as Hs.
      apply (Sorted_neighbours _ _ _ _ _ Hs).
    + pose proof (tiling_recurrence _ _ _ Ho Hc _ _ Ht) as Hs.
      apply (Sorted_neighbours _ _ _ _ _ Hs).
  - eapply tiling_last_window; eauto.
Qed.

Lemma build_chunks_with_overlap_tiles_witness :
  exists chunks,
    build_chunks_with_overlap 100 40 10 = Ok chunks /\
    (forall t, 0 <= t -> t < 100 -> Exists (in_window t) chunks) /\
    (forall front w1 w2 back,
       chunks = front ++ w1 :: w2 :: back ->
       (fst w1 <= fst w2 /\ fst w2 <= snd w1 /\ snd w1 <= snd w2) /\
       fst w2 == fst w1 + (40 - 10) /\
       snd w1 == fst w1 + 40) /\
    (exists init last,
       chunks = init ++ [last] /\ snd last == 100 /\
       Forall (fun w => snd w < 100) init).
Proof.
  apply (build_chunks_with_overlap_tiles 100 40 10);
    unfold Qlt, Qle; simpl; lia.
Defined.

(** On binary64 floats the call [build_chunks_with_overlap(200, 90.5,
    8.3)] returns three windows, and both pairs of neighbours overlap by
    less than [8.3]: the first window ends at [90.5], the second starts
    at the double [90.5 - 8.3] rounds to, and their difference rounds
    below [8.3]. *)
Lemma build_chunks_overlap_rounds :
  exists w1 w2 w3,
    Binary64.build_chunks_with_overlap 10 200%float (181 / 2)%float
                                       (83 / 10)%float =
      Some (Ok [w1; w2; w3]) /\
    (Binary64.overlap_of w1 w2 <? 83 / 10)%float = true /\
    (Binary64.overlap_of w2 w3 <? 83 / 10)%float = true /\
    (Binary64.overlap_of w1 w2 =? 83 / 10)%float = false.
Proof.
  eexists _, _, _. split; [vm_compute; reflexivity|].
  repeat split; vm_compute; reflexivity.
Qed.

(* ------------------------------------------------------------------ *)
(** ** Moment parser *)

Lemma upper_app (a b : string) :
  upper (a ++ b) = (upper a ++ upper b)%string.
Proof. induction a as [|c a IH]; simpl; [reflexivity | now rewrite IH]. Qed.

Lemma none_word_upper (w : string) : none_word w -> upper w = "NONE"%string.
Proof.
  intros (c1 & c2 & c3 & c4 & -> & [-> | ->] & [-> | ->] & [-> | ->] & [-> | ->]);
    reflexivity.
Qed.

Lemma prefix_app (pat rest : string) : prefix pat (pat ++ rest) = true.
Proof.
  induction pat as [|c pat IH]; simpl; [now destruct rest|].
  destruct (ascii_dec c c); [exact IH | congruence].
Qed.

Lemma contains_prefix (pat s : string) :
  prefix pat s = true -> contains pat s = true.
Proof. intros H. destruct s; cbn [contains]; rewrite H; reflexivity. Qed.

Lemma contains_app (pat before after : string) :
  contains pat (before ++ pat ++ after) = true.
Proof.
  induction before as [|c before IH].
  - change (contains pat (pat ++ after) = true).
    apply contains_prefix, prefix_app.
  - cbn [append contains]. rewrite IH. now destruct (prefix _ _).
Qed.

(** The test of [parse_moments] fires on every text in which the
    sentinel occurs in any mix of cases. *)
Lemma sentinel_detected (w before after : string) :
  none_word w -> contains "NONE" (upper (before ++ w ++ after)) = true.
Proof.
  intros Hw. rewrite !upper_app, (none_word_upper w Hw). apply contains_app.
Qed.

Lemma parse_moments_short_circuit (text : string) :
  contains "NONE" (upper text) = true -> parse_moments text = Ok [].
Proof.
  intros H. unfold parse_moments. rewrite H, orb_true_r. reflexivity.
Qed.

(** C7. Whenever the response text contains the sentinel NONE, in any
    mix of upper and lower case, the parser returns the empty list, also
    when the text holds well-formed MOMENT lines: the text
    "MOMENT: 1.0 3.5 goal\nNONE\n" yields no moment, although its first
    line alone yields one. *)
Theorem parse_moments_sentinel (text : string) :
  (exists w, none_word w /\ occurs_in w text) ->
  parse_moments text = Ok [] /\
  parse_moments "MOMENT: 1.0 3.5 goal
NONE
" = Ok [] /\
  parse_moments "MOMENT: 1.0 3.5 goal
" = Ok [HighlightMoment.mk (10 # 10) (35 # 10) "goal"].
Proof.
  intros (w & Hw & before & after & ->).
  split; [|split; reflexivity].
  apply parse_moments_short_circuit. now apply sentinel_detected.
Qed.

Lemma parse_moments_sentinel_witness :
  parse_moments "MOMENT: 12.5 18.0 key save
None
MOMENT: 20 31 celebration" = Ok [].
Proof.
  apply (parse_moments_sentinel "MOMENT: 12.5 18.0 key save
None
MOMENT: 20 31 celebration").
  exists "None"%string. split.
  - exists "N"%char, "o"%char, "n"%char, "e"%char. repeat split; auto.
  - exists "MOMENT: 12.5 18.0 key save
"%string, "
MOMENT: 20 31 celebration"%string. reflexivity.
Defined.

(** C9. The parser returns the empty list whenever the four letters
    n-o-n-e occur, in any mix of cases, anywhere in the response text,
    whatever comes before and after them - also inside an unrelated word:
    a well-formed MOMENT line whose description contains "nonexistent"
    yields no moment, and neither does any other MOMENT line of the same
    response, while the same lines with another description are parsed. *)
Theorem parse_moments_none_substring (w before after : string) :
  none_word w ->
  parse_moments (before ++ w ++ after) = Ok [] /\
  parse_moments "MOMENT: 2 5 save
MOMENT: 7.5 9 nonexistent offside call" = Ok [] /\
  parse_moments "MOMENT: 2 5 save
MOMENT: 7.5 9 disputed offside call" =
    Ok [HighlightMoment.mk 2 5 "save";
        HighlightMoment.mk (75 # 10) 9 "disputed offside call"].
Proof.
  intros Hw. split; [|split; reflexivity].
  apply parse_moments_short_circuit. now apply sentinel_detected.
Qed.

Lemma parse_moments_none_substring_witness :
  parse_moments ("MOMENT: 1.0 3.5 goal, " ++ "nonE" ++ "theless offside
MOMENT: 4 6 corner") = Ok [].
Proof.
  apply (parse_moments_none_substring "nonE" "MOMENT: 1.0 3.5 goal, "
           "theless offside
MOMENT: 4 6 corner").
  exists "n"%char, "o"%char, "n"%char, "E"%char. repeat split; auto.
Defined.

(** C4 fails on the code.  A line that matches the pattern of
    [parse_moments] but whose number groups are not numerals - the class
    [[\d.]+] also admits "1.2.3" and "." - reaches [float], which raises
    [ValueError]; the exception leaves [parse_moments], whatever the
    other lines are.  Lines that do not match the pattern are skipped. *)
Theorem parse_moments_raises_on_malformed_number :
  re_match MOMENT_RE "MOMENT: 1.2.3 4.5 goal" =
    Some ["1.2.3"; "4.5"; "goal"]%string /\
  py_float "1.2.3" = Raise ValueError /\
  parse_moments "MOMENT: 1.2.3 4.5 goal" = Raise ValueError /\
  parse_moments "MOMENT: 1 . x" = Raise ValueError /\
  parse_moments "MOMENT: 2 5 good
MOMENT: 7..5 9 typo
MOMENT: 10 12 late" = Raise ValueError /\
  parse_moments "MOMENT: 2 5 good
MOMENT: seven 9 skipped
MOMENT: 10 12 late" =
    Ok [HighlightMoment.mk 2 5 "good"; HighlightMoment.mk 10 12 "late"].
Proof. repeat split; reflexivity. Qed.

(* ------------------------------------------------------------------ *)
(** ** Pipeline orchestrator *)

Section Orchestrator.
Variable w : World.t.
Variable config : HighlightConfig.t.

Local Abbreviation model := (HighlightConfig.gemini_model config).
Local Abbreviation api_key := (HighlightConfig.gemini_api_key config).

(** The loop over the windows has no handler: the first window whose
    analysis raises ends it with that exception. *)
Lemma analyze_chunks_raises (done later : list ChunkMapping.t)
    (m : ChunkMapping.t) (e : exn) :
  Forall (fun m' => exists got, get_chunk_highlights w m' model api_key = Ok got)
         done ->
  World.analyze_chunk_with_gemini w (ChunkMapping.chunk_file_path m)
    model api_key = Raise e ->
  forall all_global_segments,
    analyze_chunks w config (done ++ m :: later) all_global_segments = Raise e.
Proof.
  intros Hdone Hbad. induction Hdone as [|m' done [got Hgot] _ IH];
    intros acc; simpl.
  - unfold get_chunk_highlights. rewrite Hbad. reflexivity.
  - rewrite Hgot. simpl. apply IH.
Qed.
End Orchestrator.

(** C5, as the code has it.  [run_pipeline] has no handler around the
    per-window analysis and no setting that adds one: when the chunk
    analyzer raises for a window (analyzer error or timeout) after the
    windows before it were analysed, the run ends with that exception -
    the later windows are not analysed and no reel is assembled. *)
Theorem run_pipeline_aborts_on_analyzer_failure
    (w : World.t) (config : HighlightConfig.t)
    (done later : list ChunkMapping.t) (m : ChunkMapping.t)
    (total_duration : Q) (e : exn) :
  String.eqb (HighlightConfig.video_path config) "" = false ->
  World.is_file w (HighlightConfig.video_path config) = true ->
  String.eqb (HighlightConfig.gemini_api_key config) "" &&
    String.eqb (World.environ_GEMINI_API_KEY w) "" = false ->
  build_chunk_mappings w (HighlightConfig.video_path config)
    (World.path_join w
       (World.path_join w (HighlightConfig.output_dir config) "chunks")
       (HighlightConfig.output_basename config))
    (HighlightConfig.chunk_duration_sec config)
    (HighlightConfig.chunk_overlap_sec config)
    = Ok (done ++ m :: later, total_duration) ->
  Forall (fun m' => exists got,
            get_chunk_highlights w m' (HighlightConfig.gemini_model config)
              (HighlightConfig.gemini_api_key config) = Ok got) done ->
  World.analyze_chunk_with_gemini w (ChunkMapping.chunk_file_path m)
    (HighlightConfig.gemini_model config)
    (HighlightConfig.gemini_api_key config) = Raise e ->
  run_pipeline w config = Raise e.
Proof.
  intros Hpath Hfile Hkey Htile Hdone Hbad.
  unfold run_pipeline. rewrite Hpath, Hfile, Hkey, Htile. simpl.
  rewrite (analyze_chunks_raises w config done later m e Hdone Hbad).
  reflexivity.
Qed.

Lemma run_pipeline_aborts_on_analyzer_failure_witness :
  run_pipeline (flaky_world "output/chunks/highlights/chunk_0001.mp4")
               (HighlightConfig.default "match.mp4" "") = Raise TimeoutError.
Proof.
  apply (run_pipeline_aborts_on_analyzer_failure
           (flaky_world "output/chunks/highlights/chunk_0001.mp4")
           (HighlightConfig.default "match.mp4" "")
           [ChunkMapping.mk 0 90 0 90 0 "output/chunks/highlights/chunk_0000.mp4"]
           []
           (ChunkMapping.mk 82 100 0 18 1 "output/chunks/highlights/chunk_0001.mp4")
           100 TimeoutError).
  - reflexivity.
  - reflexivity.
  - reflexivity.
  - vm_compute. reflexivity.
  - constructor; [|constructor]. eexists. vm_compute. reflexivity.
  - reflexivity.
Defined.

(** Against C5 as stated: under the default configuration, a video of
    100 seconds gives two windows; when the analyzer times out on the
    second one only, the run does not complete with the moments of the
    first window - it raises [TimeoutError] - whereas the same run with a
    healthy analyzer completes. *)
Lemma run_pipeline_one_bad_window_aborts :
  let config := HighlightConfig.default "match.mp4" "" in
  let w := flaky_world "output/chunks/highlights/chunk_0001.mp4" in
  World.analyze_chunk_with_gemini w "output/chunks/highlights/chunk_0000.mp4"
    "gemini-2.5-flash" "" = Ok "MOMENT: 1.0 3.5 goal"%string /\
  World.analyze_chunk_with_gemini w "output/chunks/highlights/chunk_0001.mp4"
    "gemini-2.5-flash" "" = Raise TimeoutError /\
  run_pipeline w config = Raise TimeoutError /\
  (forall summary, run_pipeline w config <> Ok summary) /\
  (exists summary, run_pipeline (flaky_world "") config = Ok summary /\
                   Summary.num_chunks summary = 2%nat).
Proof.
  intros config w.
  split; [reflexivity|]. split; [reflexivity|].
  assert (E : run_pipeline w config = Raise TimeoutError) by (vm_compute; reflexivity).
  split; [exact E|]. split.
  - intros summary. rewrite E. discriminate.
  - eexists. split; vm_compute; reflexivity.
Qed.

(* ================================================================== *)
(** * Further properties of the modelled code *)

(* ------------------------------------------------------------------ *)
(** ** Window tiler: errors, edge cases, shape of the windows *)

(** X1. [build_chunks_with_overlap] raises [ValueError] exactly when the
    overlap is not smaller than the chunk duration; in every other case -
    whatever the duration, also with a negative overlap - its loop exits
    and it returns a list of windows. *)
Theorem build_chunks_raises_iff
    (duration_sec chunk_duration_sec overlap_sec : Q) :
  (build_chunks_with_overlap duration_sec chunk_duration_sec overlap_sec
     = Raise ValueError <-> chunk_duration_sec <= overlap_sec) /\
  ((exists chunks,
      build_chunks_with_overlap duration_sec chunk_duration_sec overlap_sec
        = Ok chunks) <-> overlap_sec < chunk_duration_sec).
Proof.
  pose proof (build_chunks_within_fuel duration_sec chunk_duration_sec
                overlap_sec) as Hfuel.
  unfold build_chunks_with_overlap in *.
  destruct (Qleb_spec chunk_duration_sec overlap_sec) as [Hle|Hlt].
  - split; split; intros H; try reflexivity; try assumption.
    + destruct H as [chunks H]. discriminate.
    + lra.
  - destruct (chunk_loop _ _ _ _ _ _) as [chunks|].
    + split; split; intros H; try discriminate; try lra.
      now exists chunks.
    + congruence.
Qed.

(** What every window of the loop looks like, from any start [>= 0]. *)
Lemma chunk_loop_windows (duration_sec chunk_duration_sec step : Q)
    (P : Q * Q -> Prop) (fuel : nat) :
  0 < chunk_duration_sec -> 0 < step ->
  (forall start end_, 0 <= start -> start < end_ -> end_ <= duration_sec ->
     end_ - start <= chunk_duration_sec -> P (start, end_)) ->
  forall start acc chunks,
    0 <= start -> Forall P acc ->
    chunk_loop fuel duration_sec chunk_duration_sec step start acc = Some chunks ->
    Forall P chunks.
Proof.
  intros Hc Hs HP. induction fuel as [|fuel IH];
    intros start acc chunks H0 Hacc; simpl; [discriminate|].
  destruct (Qltb_spec start duration_sec) as [Hlt|Hge].
  - assert (Hw : P (start, py_min (start + chunk_duration_sec) duration_sec)).
    { apply HP; try assumption;
        destruct (py_min_cases (start + chunk_duration_sec) duration_sec)
          as [[? ->]|[? ->]]; lra. }
    destruct (_ <=? _).
    + intros [= <-]. apply Forall_app. split; [assumption | now constructor].
    + apply IH; [lra|]. apply Forall_app. split; [assumption | now constructor].
  - now intros [= <-].
Qed.

Lemma build_chunks_windows
    (duration_sec chunk_duration_sec overlap_sec : Q) (chunks : list (Q * Q)) :
  0 < chunk_duration_sec ->
  build_chunks_with_overlap duration_sec chunk_duration_sec overlap_sec
    = Ok chunks ->
  Forall (fun w => 0 <= fst w /\ fst w < snd w /\ snd w <= duration_sec /\
                   snd w - fst w <= chunk_duration_sec) chunks.
Proof.
  intros Hc. unfold build_chunks_with_overlap.
  destruct (Qleb_spec chunk_duration_sec overlap_sec) as [?|Hlt]; [discriminate|].
  destruct (chunk_loop _ _ _ _ _ _) as [chunks'|] eqn:E; [|discriminate].
  intros [= <-].
  eapply (chunk_loop_windows duration_sec chunk_duration_sec
            (chunk_duration_sec - overlap_sec)); try eassumption.
  - lra.
  - intros start end_ H1 H2 H3 H4. simpl. repeat split; assumption.
  - lra.
  - constructor.
Qed.

(** X2. With a positive chunk duration and an overlap smaller than it,
    every window returned by the tiler lies inside the video and ends
    at most one chunk duration after its start:
    [0 <= start <= end <= duration] and [end <= start + chunk_duration]. *)
Theorem build_chunks_windows_within_video
    (duration_sec chunk_duration_sec overlap_sec : Q) (chunks : list (Q * Q)) :
  0 < chunk_duration_sec ->
  build_chunks_with_overlap duration_sec chunk_duration_sec overlap_sec
    = Ok chunks ->
  Forall (fun w => 0 <= fst w /\ fst w <= snd w /\ snd w <= duration_sec /\
                   snd w <= fst w + chunk_duration_sec) chunks.
Proof.
  intros Hc E.
  eapply Forall_impl; [|exact (build_chunks_windows _ _ _ _ Hc E)].
  intros w (H1 & H2 & H3 & H4). repeat split; lra.
Qed.

Lemma build_chunks_windows_within_video_witness :
  Forall (fun w => 0 <= fst w /\ fst w <= snd w /\ snd w <= 200 /\
                   snd w <= fst w + 90)
         [(0, 90); (82, 172); (164, 200)].
Proof.
  apply (build_chunks_windows_within_video 200 90 8).
  - unfold Qlt. simpl. lia.
  - vm_compute. reflexivity.
Defined.

(** X3. A video that is not longer than one chunk gives exactly one
    window, from 0 to the end of the video. *)
Theorem build_chunks_short_video
    (duration_sec chunk_duration_sec overlap_sec : Q) :
  0 < duration_sec ->
  duration_sec <= chunk_duration_sec ->
  overlap_sec < chunk_duration_sec ->
  exists end_,
    build_chunks_with_overlap duration_sec chunk_duration_sec overlap_sec
      = Ok [(0, end_)] /\ end_ == duration_sec.
Proof.
  intros Hd Hdc Hoc. unfold build_chunks_with_overlap.
  destruct (Qleb_spec chunk_duration_sec overlap_sec) as [?|_]; [lra|].
  unfold chunk_fuel. simpl.
  destruct (Qltb_spec 0 duration_sec) as [_|?]; [|lra].
  destruct (py_min_cases (0 + chunk_duration_sec) duration_sec) as [[? ->]|[? ->]].
  - destruct (Qleb_spec duration_sec duration_sec) as [_|?]; [|lra].
    eexists. split; reflexivity.
  - destruct (Qleb_spec duration_sec (0 + chunk_duration_sec)) as [_|?]; [|lra].
    eexists. split; [reflexivity | lra].
Qed.

Lemma build_chunks_short_video_witness :
  exists end_, build_chunks_with_overlap 30 90 8 = Ok [(0, end_)] /\ end_ == 30.
Proof.
  apply (build_chunks_short_video 30 90 8); unfold Qlt, Qle; simpl; lia.
Defined.

(** X4. A video of no length gives no window at all. *)
Theorem build_chunks_empty_video
    (duration_sec chunk_duration_sec overlap_sec : Q) :
  duration_sec <= 0 ->
  overlap_sec < chunk_duration_sec ->
  build_chunks_with_overlap duration_sec chunk_duration_sec overlap_sec = Ok [].
Proof.
  intros Hd Hoc. unfold build_chunks_with_overlap.
  destruct (Qleb_spec chunk_duration_sec overlap_sec) as [?|_]; [lra|].
  unfold chunk_fuel. simpl.
  destruct (Qltb_spec 0 duration_sec) as [?|_]; [lra | reflexivity].
Qed.

Lemma build_chunks_empty_video_witness :
  build_chunks_with_overlap 0 90 8 = Ok [].
Proof.
  apply (build_chunks_empty_video 0 90 8); unfold Qlt, Qle; simpl; lia.
Defined.

(** X5. Under the tiler's preconditions the first window starts at 0,
    every later window starts one step [chunk_duration - overlap] after
    the window before it, and every window but the last ends one chunk
    duration after its start (the sums as the loop computes them). *)
Theorem build_chunks_window_starts
    (duration_sec chunk_duration_sec overlap_sec : Q) (chunks : list (Q * Q)) :
  0 < duration_sec ->
  0 <= overlap_sec ->
  overlap_sec < chunk_duration_sec ->
  build_chunks_with_overlap duration_sec chunk_duration_sec overlap_sec
    = Ok chunks ->
  (exists end_ rest, chunks = (0, end_) :: rest) /\
  (forall k w1 w2,
     nth_error chunks k = Some w1 -> nth_error chunks (S k) = Some w2 ->
     fst w2 == fst w1 + (chunk_duration_sec - overlap_sec) /\
     snd w1 == fst w1 + chunk_duration_sec).
Proof.
  intros Hd Ho Hc E.
  destruct (build_chunks_tiling duration_sec chunk_duration_sec overlap_sec
              Ho Hc Hd) as (chunks' & E' & Ht).
  rewrite E in E'. injection E' as <-. split.
  - destruct (tiling_head _ _ _ Ho Hc _ _ Ht) as (end_ & rest & -> & _).
    exists end_, rest. reflexivity.
  - intros k w1 w2 H1 H2.
    pose proof (tiling_recurrence _ _ _ Ho Hc _ _ Ht) as Hs.
    destruct (nth_error_split _ _ H1) as (front & back & -> & Hlen).
    rewrite nth_error_app2 in H2 by lia.
    replace (S k - List.length front)%nat with 1%nat in H2 by lia.
    destruct back as [|w back]; [discriminate|]. injection H2 as ->.
    apply (Sorted_neighbours _ _ _ _ _ Hs).
Qed.

Lemma build_chunks_window_starts_witness :
  (exists end_ rest, [(0, 40); (30, 70); (60, 100)] = (0, end_) :: rest) /\
  (forall k w1 w2,
     nth_error [(0, 40); (30, 70); (60, 100)] k = Some w1 ->
     nth_error [(0, 40); (30, 70); (60, 100)] (S k) = Some w2 ->
     fst w2 == fst w1 + (40 - 10) /\
     snd w1 == fst w1 + 40).
Proof.
  apply (build_chunks_window_starts 100 40 10 [(0, 40); (30, 70); (60, 100)]).
  - unfold Qlt. simpl. lia.
  - unfold Qle. simpl. lia.
  - unfold Qlt. simpl. lia.
  - vm_compute. reflexivity.
Defined.

(* ------------------------------------------------------------------ *)
(** ** Chunk mappings *)

Section ChunkMappings.
Variable w : World.t.
Variables source_video_path work_dir : string.

Lemma extract_chunks_ok (intervals : list (Q * Q)) :
  forall i acc mappings,
    extract_chunks w source_video_path work_dir i intervals acc = Ok mappings ->
    mappings = acc ++ mappings_from w work_dir i intervals /\
    Forall (fun m =>
              World.extract_chunk_video w source_video_path
                (ChunkMapping.original_video_start_time m)
                (ChunkMapping.original_video_end_time m)
                (ChunkMapping.chunk_file_path m) = Ok tt)
           (mappings_from w work_dir i intervals).
Proof.
  induction intervals as [|[start end_] intervals IH]; intros i acc mappings; simpl.
  - intros [= <-]. split; [now rewrite app_nil_r | constructor].
  - destruct (World.extract_chunk_video w _ _ _ _) as [[]|e] eqn:E; simpl;
      [|discriminate].
    intros H. destruct (IH _ _ _ H) as [-> Hall]. split.
    + now rewrite <- app_assoc.
    + constructor; [exact E | exact Hall].
Qed.

Lemma extract_chunks_raises (done later : list (Q * Q)) (start end_ : Q)
    (e : exn) :
  forall i acc,
    Forall (fun m =>
              World.extract_chunk_video w source_video_path
                (ChunkMapping.original_video_start_time m)
                (ChunkMapping.original_video_end_time m)
                (ChunkMapping.chunk_file_path m) = Ok tt)
           (mappings_from w work_dir i done) ->
    World.extract_chunk_video w source_video_path start end_
      (World.path_join w work_dir
         (World.chunk_label w (i + List.length done) start end_)) = Raise e ->
    extract_chunks w source_video_path work_dir i
      (done ++ (start, end_) :: later) acc = Raise e.
Proof.
  induction done as [|[s0 e0] done IH]; intros i acc Hdone Hbad; simpl.
  - rewrite Nat.add_0_r in Hbad. rewrite Hbad. reflexivity.
  - simpl in Hdone. inversion Hdone as [|? ? H0 Hrest]; subst.
    simpl in H0. rewrite H0. simpl. apply IH; [exact Hrest|].
    simpl in Hbad. now rewrite Nat.add_succ_r in Hbad.
Qed.

Lemma mappings_from_nth (intervals : list (Q * Q)) :
  forall i k m,
    nth_error (mappings_from w work_dir i intervals) k = Some m ->
    exists start end_,
      nth_error intervals k = Some (start, end_) /\
      m = ChunkMapping.mk start end_ 0 (end_ - start) (i + k)
            (World.path_join w work_dir
               (World.chunk_label w (i + k) start end_)).
Proof.
  induction intervals as [|[start end_] intervals IH]; intros i k m; simpl.
  - destruct k; discriminate.
  - destruct k as [|k]; simpl.
    + intros [= <-]. exists start, end_. rewrite Nat.add_0_r. now split.
    + intros H. destruct (IH _ _ _ H) as (s' & e' & H1 & H2).
      exists s', e'. split; [exact H1|]. rewrite H2.
      now rewrite Nat.add_succ_r.
Qed.

Lemma mappings_from_length (intervals : list (Q * Q)) :
  forall i, List.length (mappings_from w work_dir i intervals)
            = List.length intervals.
Proof.
  induction intervals as [|[start end_] intervals IH]; intros i; simpl;
    [reflexivity | now rewrite IH].
Qed.
End ChunkMappings.

(** X6. When [build_chunk_mappings] succeeds, the duration it returns is
    the probed one and the mappings mirror the tiler's windows one to
    one, in order: mapping [k] carries window [k] as its source range,
    has index [k], a local timeline from 0 to [end - start], the file
    [work_dir / label], and that file was extracted successfully. *)
Theorem build_chunk_mappings_mirror_windows
    (w : World.t) (source_video_path work_dir : string)
    (chunk_duration_sec overlap_sec duration_sec : Q)
    (mappings : list ChunkMapping.t) :
  build_chunk_mappings w source_video_path work_dir chunk_duration_sec
    overlap_sec = Ok (mappings, duration_sec) ->
  World.get_video_duration_sec w source_video_path = Ok duration_sec /\
  exists intervals,
    build_chunks_with_overlap duration_sec chunk_duration_sec overlap_sec
      = Ok intervals /\
    List.length mappings = List.length intervals /\
    forall k m, nth_error mappings k = Some m ->
      exists start end_,
        nth_error intervals k = Some (start, end_) /\
        m = ChunkMapping.mk start end_ 0 (end_ - start) k
              (World.path_join w work_dir (World.chunk_label w k start end_)) /\
        World.extract_chunk_video w source_video_path start end_
          (ChunkMapping.chunk_file_path m) = Ok tt.
Proof.
  unfold build_chunk_mappings.
  destruct (World.get_video_duration_sec w source_video_path) as [d|e]; simpl;
    [|discriminate].
  destruct (build_chunks_with_overlap d chunk_duration_sec overlap_sec)
    as [intervals|e] eqn:Et; simpl; [|discriminate].
  destruct (extract_chunks w source_video_path work_dir 0 intervals [])
    as [ms|e] eqn:Ex; simpl; [|discriminate].
  intros [= <- <-]. split; [reflexivity|].
  destruct (extract_chunks_ok _ _ _ _ _ _ _ Ex) as [-> Hall]. simpl.
  exists intervals. split; [exact Et|].
  split; [apply mappings_from_length|].
  intros k m Hk.
  destruct (mappings_from_nth _ _ _ _ _ _ Hk) as (start & end_ & H1 & H2).
  simpl in H2. exists start, end_. split; [exact H1|]. split; [exact H2|].
  rewrite Forall_forall in Hall.
  specialize (Hall m (nth_error_In _ _ Hk)). rewrite H2 in Hall |- *.
  exact Hall.
Qed.

Lemma build_chunk_mappings_mirror_windows_witness :
  World.get_video_duration_sec (flaky_world "") "match.mp4" = Ok 100 /\
  exists intervals,
    build_chunks_with_overlap 100 90 8 = Ok intervals /\
    List.length [ChunkMapping.mk 0 90 0 90 0 "chunks/chunk_0000.mp4";
                 ChunkMapping.mk 82 100 0 18 1 "chunks/chunk_0001.mp4"]
      = List.length intervals /\
    forall k m,
      nth_error [ChunkMapping.mk 0 90 0 90 0 "chunks/chunk_0000.mp4";
                 ChunkMapping.mk 82 100 0 18 1 "chunks/chunk_0001.mp4"] k
        = Some m ->
      exists start end_,
        nth_error intervals k = Some (start, end_) /\
        m = ChunkMapping.mk start end_ 0 (end_ - start) k
              (World.path_join (flaky_world "") "chunks"
                 (World.chunk_label (flaky_world "") k start end_)) /\
        World.extract_chunk_video (flaky_world "") "match.mp4" start end_
          (ChunkMapping.chunk_file_path m) = Ok tt.
Proof.
  apply (build_chunk_mappings_mirror_windows (flaky_world "") "match.mp4"
           "chunks" 90 8 100).
  vm_compute. reflexivity.
Defined.

(** X7. [build_chunk_mappings] stops at the first window whose
    extraction fails: when the windows before it were extracted, it
    raises the extractor's exception and returns no mapping. *)
Theorem build_chunk_mappings_extraction_failure
    (w : World.t) (source_video_path work_dir : string)
    (chunk_duration_sec overlap_sec duration_sec : Q)
    (done later : list (Q * Q)) (start end_ : Q) (e : exn) :
  World.get_video_duration_sec w source_video_path = Ok duration_sec ->
  build_chunks_with_overlap duration_sec chunk_duration_sec overlap_sec
    = Ok (done ++ (start, end_) :: later) ->
  Forall (fun m =>
            World.extract_chunk_video w source_video_path
              (ChunkMapping.original_video_start_time m)
              (ChunkMapping.original_video_end_time m)
              (ChunkMapping.chunk_file_path m) = Ok tt)
         (mappings_from w work_dir 0 done) ->
  World.extract_chunk_video w source_video_path start end_
    (World.path_join w work_dir
       (World.chunk_label w (List.length done) start end_)) = Raise e ->
  build_chunk_mappings w source_video_path work_dir chunk_duration_sec
    overlap_sec = Raise e.
Proof.
  intros Hd Ht Hdone Hbad. unfold build_chunk_mappings.
  rewrite Hd. simpl. rewrite Ht. simpl.
  rewrite (extract_chunks_raises w source_video_path work_dir done later
             start end_ e 0 [] Hdone Hbad).
  reflexivity.
Qed.

Lemma build_chunk_mappings_extraction_failure_witness :
  build_chunk_mappings (failing_extract_world 82) "match.mp4" "chunks" 90 8
    = Raise CalledProcessError.
Proof.
  apply (build_chunk_mappings_extraction_failure (failing_extract_world 82)
           "match.mp4" "chunks" 90 8 100 [(0, 90)] [] 82 100
           CalledProcessError).
  - reflexivity.
  - vm_compute. reflexivity.
  - repeat constructor.
  - reflexivity.
Defined.

(* ------------------------------------------------------------------ *)
(** ** Timestamp normalizer: composition and in-range moments *)

(** X8. The normalizer treats the moments one by one: the segments of a
    concatenation of moment lists are the segments of the first list
    followed by those of the second, and there are never more segments
    than moments. *)
Theorem normalize_to_original_time_app
    (mapping : ChunkMapping.t) (moments1 moments2 : list HighlightMoment.t) :
  normalize_to_original_time mapping (moments1 ++ moments2) =
    normalize_to_original_time mapping moments1 ++
    normalize_to_original_time mapping moments2 /\
  (List.length (normalize_to_original_time mapping moments1)
   <= List.length moments1)%nat.
Proof.
  unfold normalize_to_original_time. rewrite !normalize_fold. simpl. split.
  - apply flat_map_app.
  - induction moments1 as [|m ms IH]; simpl; [lia|].
    rewrite length_app.
    assert (List.length
              (normalize_moment (ChunkMapping.original_video_start_time mapping)
                 (ChunkMapping.chunk_end_time mapping) [] m) <= 1)%nat.
    { unfold normalize_moment. destruct (_ <=? _); simpl; lia. }
    lia.
Qed.

(** X9. Moments that already lie inside the window, with
    [0 <= start < end <= chunk_end], are neither dropped nor clamped:
    each yields the segment shifted by the window's source start, with
    its label, in the same order. *)
Theorem normalize_to_original_time_in_range
    (mapping : ChunkMapping.t) (moments : list HighlightMoment.t) :
  Forall (fun m => 0 <= HighlightMoment.start_sec m /\
                   HighlightMoment.start_sec m < HighlightMoment.end_sec m /\
                   HighlightMoment.end_sec m <= ChunkMapping.chunk_end_time mapping)
         moments ->
  Forall2 seg_equiv
    (normalize_to_original_time mapping moments)
    (map (shifted (ChunkMapping.original_video_start_time mapping)) moments).
Proof.
  intros Hall. unfold normalize_to_original_time. rewrite normalize_fold. simpl.
  induction Hall as [|m ms (H0 & H1 & H2) _ IH]; simpl; [constructor|].
  change (shifted (ChunkMapping.original_video_start_time mapping) m
          :: map (shifted (ChunkMapping.original_video_start_time mapping)) ms)
    with ([shifted (ChunkMapping.original_video_start_time mapping) m]
          ++ map (shifted (ChunkMapping.original_video_start_time mapping)) ms).
  apply Forall2_app; [|exact IH].
  unfold normalize_moment, shifted.
  set (ms' := HighlightMoment.start_sec m) in *.
  set (me := HighlightMoment.end_sec m) in *.
  set (ce := ChunkMapping.chunk_end_time mapping) in *.
  destruct (py_min_cases ms' ce) as [[? E1]|[? E1]];
  destruct (py_min_cases me ce) as [[? E2]|[? E2]];
  rewrite E1, E2; try lra;
  match goal with
  | |- context [py_max 0 ?x] =>
      destruct (py_max_cases 0 x) as [[? M1]|[? M1]]; rewrite M1; try lra
  end;
  match goal with
  | |- context [py_max ?a ?x] =>
      destruct (py_max_cases a x) as [[? M2]|[? M2]]; rewrite M2; try lra
  end;
  qcases; try lra; repeat constructor; simpl; lra.
Qed.

Lemma normalize_to_original_time_in_range_witness :
  Forall2 seg_equiv
    (normalize_to_original_time (ChunkMapping.mk 82 100 0 18 1 "chunk_0001.mp4")
       [HighlightMoment.mk 0 (7 # 2) "kick-off"; HighlightMoment.mk 12 18 "goal"])
    (map (shifted 82)
       [HighlightMoment.mk 0 (7 # 2) "kick-off"; HighlightMoment.mk 12 18 "goal"]).
Proof.
  apply (normalize_to_original_time_in_range
           (ChunkMapping.mk 82 100 0 18 1 "chunk_0001.mp4")
           [HighlightMoment.mk 0 (7 # 2) "kick-off";
            HighlightMoment.mk 12 18 "goal"]).
  repeat constructor; simpl; unfold Qle, Qlt; simpl; lia.
Defined.

(* ------------------------------------------------------------------ *)
(** ** Segment merger: where the output comes from, what it joins *)

Lemma insert_by_length {A : Type} (lt : A -> A -> bool) (x : A) (l : list A) :
  List.length (insert_by lt x l) = S (List.length l).
Proof.
  induction l as [|y l IH]; simpl; [reflexivity|].
  destruct (lt y x); simpl; [now rewrite IH | reflexivity].
Qed.

Lemma sorted_length {A : Type} (lt : A -> A -> bool) (l : list A) :
  List.length (sorted lt l) = List.length l.
Proof.
  induction l as [|x l IH]; simpl; [reflexivity|].
  now rewrite insert_by_length, IH.
Qed.

Section SweepOrigin.
Variable gap_sec : Q.

Local Abbreviation extend last s :=
  (GlobalSegment.mk (GlobalSegment.start_sec last)
     (py_max (GlobalSegment.end_sec last) (GlobalSegment.end_sec s))
     (GlobalSegment.reason last)).

Lemma sweep_length (rest : list GlobalSegment.t) :
  forall last,
    (1 <= List.length (sweep gap_sec last rest) <= S (List.length rest))%nat.
Proof.
  induction rest as [|s rest IH]; intros last; simpl; [lia|].
  destruct (_ <=? _); simpl.
  - specialize (IH (extend last s)). lia.
  - specialize (IH s). lia.
Qed.

(** Start and label of an output segment are those of one swept segment,
    and its end is the end of one swept segment. *)
Lemma sweep_origin (rest : list GlobalSegment.t) :
  forall last o, In o (sweep gap_sec last rest) ->
    (exists s, In s (last :: rest) /\
               GlobalSegment.start_sec o = GlobalSegment.start_sec s /\
               GlobalSegment.reason o = GlobalSegment.reason s) /\
    (exists s, In s (last :: rest) /\
               GlobalSegment.end_sec o = GlobalSegment.end_sec s).
Proof.
  induction rest as [|s' rest IH]; intros last o; simpl.
  - intros [<-|[]]. split; exists last; auto.
  - destruct (_ <=? _).
    + intros Ho. destruct (IH _ _ Ho) as [(s1 & Hs1 & E1 & E1') (s2 & Hs2 & E2)].
      split.
      * destruct Hs1 as [<-|Hs1]; [exists last | exists s1]; simpl in *; auto.
      * destruct Hs2 as [<-|Hs2]; [|exists s2; auto].
        simpl in E2.
        destruct (py_max_cases (GlobalSegment.end_sec last)
                    (GlobalSegment.end_sec s')) as [[_ M]|[_ M]];
          rewrite M in E2; [exists s' | exists last]; auto.
    + intros [<-|Ho]; [split; exists last; auto|].
      destruct (IH _ _ Ho) as [(s1 & Hs1 & E1) (s2 & Hs2 & E2)].
      split; [exists s1 | exists s2]; auto.
Qed.

Lemma extend_key_sorted (last s : GlobalSegment.t)
    (rest : list GlobalSegment.t) :
  StronglySorted key_le (last :: s :: rest) ->
  StronglySorted key_le (extend last s :: rest).
Proof.
  intros H. inversion H as [|? ? Hs Hl]; subst.
  inversion Hs as [|? ? Hs' Hsr]; subst.
  inversion Hl as [|? ? Hls Hlr]; subst.
  constructor; [assumption|].
  rewrite Forall_forall in *. intros z Hz.
  specialize (Hsr z Hz). specialize (Hlr z Hz).
  unfold key_le in *. simpl.
  destruct (py_max_cases (GlobalSegment.end_sec last)
              (GlobalSegment.end_sec s)) as [[? M]|[? M]]; rewrite M;
    destruct Hlr as [?|[? ?]]; try (left; lra);
    destruct Hsr as [?|[? ?]]; destruct Hls as [?|[? ?]];
    try (left; lra); right; split; lra.
Qed.

(** A segment that starts within the gap of the run in progress ends up
    inside the first output segment. *)
Lemma sweep_head_covers (rest : list GlobalSegment.t) :
  forall last s2,
    StronglySorted key_le (last :: rest) ->
    In s2 rest ->
    GlobalSegment.start_sec s2 <= GlobalSegment.end_sec last + gap_sec ->
    exists hd tl, sweep gap_sec last rest = hd :: tl /\
                  covered_by s2 hd /\ covered_by last hd.
Proof.
  induction rest as [|t rest IH]; intros last s2 Hsorted Hin Hnear;
    [destruct Hin|].
  pose proof (extend_key_sorted _ _ _ Hsorted) as Hext.
  inversion Hsorted as [|? ? Hs Hl]; subst.
  inversion Hl as [|? ? Hlt Hlr]; subst.
  inversion Hs as [|? ? Hs' Htr]; subst.
  apply key_le_start in Hlt.
  assert (Hmax : GlobalSegment.end_sec last <=
                   py_max (GlobalSegment.end_sec last) (GlobalSegment.end_sec t) /\
                 GlobalSegment.end_sec t <=
                   py_max (GlobalSegment.end_sec last) (GlobalSegment.end_sec t)).
  { destruct (py_max_cases (GlobalSegment.end_sec last)
                (GlobalSegment.end_sec t)) as [[? ->]|[? ->]]; split; lra. }
  simpl. destruct Hin as [<-|Hin].
  - destruct (Qleb_spec (GlobalSegment.start_sec t)
                (GlobalSegment.end_sec last + gap_sec)) as [_|?]; [|lra].
    destruct (sweep_head gap_sec rest (extend last t))
      as (hd & tl & E & Hst & Hen).
    exists hd, tl. simpl in Hst, Hen. unfold covered_by. rewrite Hst.
    repeat split; try assumption; try lra.
  - rewrite Forall_forall in Htr. pose proof (key_le_start _ _ (Htr _ Hin)).
    destruct (Qleb_spec (GlobalSegment.start_sec t)
                (GlobalSegment.end_sec last + gap_sec)) as [_|?]; [|lra].
    destruct (IH (extend last t) s2 Hext Hin) as (hd & tl & E & Hc2 & Hcl).
    { simpl. lra. }
    exists hd, tl. unfold covered_by in *. simpl in Hcl.
    repeat split; try assumption; lra.
Qed.

(** Two swept segments of which the later one starts within the gap of
    the earlier one end up inside one output segment. *)
Lemma sweep_joins (rest : list GlobalSegment.t) :
  0 <= gap_sec ->
  forall last,
    StronglySorted key_le (last :: rest) ->
    Forall seg_valid (last :: rest) ->
    forall s1 s2,
      In s1 (last :: rest) -> In s2 (last :: rest) ->
      GlobalSegment.start_sec s1 <= GlobalSegment.start_sec s2 ->
      GlobalSegment.start_sec s2 <= GlobalSegment.end_sec s1 + gap_sec ->
      exists o, In o (sweep gap_sec last rest) /\
                covered_by s1 o /\ covered_by s2 o.
Proof.
  intros Hgap. induction rest as [|t rest IH];
    intros last Hsorted Hvalid s1 s2 H1 H2 Hord Hnear.
  - destruct H1 as [<-|[]]. destruct H2 as [<-|[]].
    exists last. simpl. unfold covered_by. repeat split; auto; lra.
  - assert (Hhead : forall s, In s (t :: rest) ->
              GlobalSegment.start_sec s <= GlobalSegment.end_sec last + gap_sec ->
              exists o, In o (sweep gap_sec last (t :: rest)) /\
                        covered_by s o /\ covered_by last o).
    { intros s Hs Hn.
      destruct (sweep_head_covers (t :: rest) last s Hsorted Hs Hn)
        as (hd & tl & E & Hc & Hcl).
      exists hd. rewrite E. split; [now left | split; assumption]. }
    assert (Hstart : forall s, In s (t :: rest) ->
              GlobalSegment.start_sec last <= GlobalSegment.start_sec s).
    { inversion Hsorted as [|? ? _ Hl]; subst. rewrite Forall_forall in Hl.
      intros s Hs. apply key_le_start. now apply Hl. }
    assert (Hvl : seg_valid last) by (now inversion Hvalid).
    unfold seg_valid in Hvl.
    destruct H1 as [<-|H1]; destruct H2 as [<-|H2].
    + destruct (sweep_head gap_sec (t :: rest) last) as (hd & tl & E & Hs & He).
      exists hd. rewrite E. split; [now left|].
      unfold covered_by. rewrite Hs. repeat split; lra.
    + destruct (Hhead s2 H2 Hnear) as (o & Ho & Hc2 & Hc1). exists o. auto.
    + pose proof (Hstart s1 H1).
      destruct (Hhead s1 H1) as (o & Ho & Hc1 & Hc2); [lra|]. exists o. auto.
    + pose proof (extend_key_sorted _ _ _ Hsorted) as Hext.
      inversion Hsorted as [|? ? Hs Hl]; subst.
      inversion Hvalid as [|? ? _ Hv]; subst.
      inversion Hv as [|? ? Hvt Hvr]; subst.
      assert (Hmax : GlobalSegment.end_sec last <=
                       py_max (GlobalSegment.end_sec last) (GlobalSegment.end_sec t) /\
                     GlobalSegment.end_sec t <=
                       py_max (GlobalSegment.end_sec last) (GlobalSegment.end_sec t)).
      { destruct (py_max_cases (GlobalSegment.end_sec last)
                    (GlobalSegment.end_sec t)) as [[? ->]|[? ->]]; split; lra. }
      assert (Hvext : Forall seg_valid (extend last t :: rest)).
      { constructor; [|assumption]. unfold seg_valid. simpl. lra. }
      pose proof (Hstart t (or_introl eq_refl)) as Hlt.
      assert (Htstart : forall s, In s rest ->
                GlobalSegment.start_sec t <= GlobalSegment.start_sec s).
      { inversion Hs as [|? ? _ Htr]; subst. rewrite Forall_forall in Htr.
        intros s Hin. apply key_le_start. now apply Htr. }
      simpl. destruct (Qleb_spec (GlobalSegment.start_sec t)
                         (GlobalSegment.end_sec last + gap_sec)) as [Hm|Hm].
      * (* [t] joins the run of [last] *)
        assert (Hhead' : forall s, In s rest ->
                  GlobalSegment.start_sec s <= GlobalSegment.end_sec t + gap_sec ->
                  exists o, In o (sweep gap_sec (extend last t) rest) /\
                            covered_by s o /\ covered_by t o).
        { intros s Hin Hn.
          destruct (sweep_head_covers rest (extend last t) s Hext Hin)
            as (hd & tl & E & Hc & Hcl); [simpl; lra|].
          exists hd. rewrite E. split; [now left|].
          unfold covered_by in *. simpl in Hcl.
          repeat split; try tauto; lra. }
        destruct H1 as [<-|H1]; destruct H2 as [<-|H2].
        -- destruct (sweep_head gap_sec rest (extend last t))
             as (hd & tl & E & Hst & Hen).
           exists hd. rewrite E. split; [now left|].
           simpl in Hst, Hen. unfold covered_by.
           rewrite Hst. repeat split; lra.
        -- destruct (Hhead' s2 H2 Hnear) as (o & Ho & Hc2 & Hc1).
           exists o. auto.
        -- pose proof (Htstart s1 H1). unfold seg_valid in Hvt.
           destruct (Hhead' s1 H1) as (o & Ho & Hc1 & Hc2); [lra|].
           exists o. auto.
        -- apply (IH (extend last t) Hext Hvext s1 s2); auto;
             now right.
      * (* [t] starts a new run *)
        destruct (IH t Hs Hv s1 s2 H1 H2 Hord Hnear) as (o & Ho & Hc).
        exists o. split; [now right | exact Hc].
Qed.
End SweepOrigin.

Lemma merge_output_origin_aux
    (segments : list GlobalSegment.t) (gap_sec : Q) (o : GlobalSegment.t) :
  In o (merge_overlapping_or_adjacent segments gap_sec) ->
  (exists s, In s segments /\
             GlobalSegment.start_sec o = GlobalSegment.start_sec s /\
             GlobalSegment.reason o = GlobalSegment.reason s) /\
  (exists s, In s segments /\
             GlobalSegment.end_sec o = GlobalSegment.end_sec s).
Proof.
  rewrite merge_is_sweep.
  pose proof (fun z => sorted_in key_lt z segments) as Hin.
  destruct (sorted key_lt segments) as [|first rest]; [intros []|].
  intros Ho. destruct (sweep_origin gap_sec rest first o Ho)
    as [(s1 & H1 & E1) (s2 & H2 & E2)].
  split; [exists s1 | exists s2]; split; auto; now apply Hin.
Qed.

(** X10. Nothing in the merger's output is invented: every output
    segment has the start and the label of one and the same input
    segment (the first of its run), and its end is the end of some input
    segment. *)
Theorem merge_output_from_input
    (segments : list GlobalSegment.t) (gap_sec : Q) (o : GlobalSegment.t) :
  In o (merge_overlapping_or_adjacent segments gap_sec) ->
  (exists s, In s segments /\
             GlobalSegment.start_sec o = GlobalSegment.start_sec s /\
             GlobalSegment.reason o = GlobalSegment.reason s) /\
  (exists s, In s segments /\
             GlobalSegment.end_sec o = GlobalSegment.end_sec s).
Proof. apply merge_output_origin_aux. Qed.

Lemma merge_output_from_input_witness :
  (exists s, In s [GlobalSegment.mk 9 20 "b"; GlobalSegment.mk 0 10 "a"] /\
             GlobalSegment.start_sec (GlobalSegment.mk 0 20 "a")
               = GlobalSegment.start_sec s /\
             GlobalSegment.reason (GlobalSegment.mk 0 20 "a")
               = GlobalSegment.reason s) /\
  (exists s, In s [GlobalSegment.mk 9 20 "b"; GlobalSegment.mk 0 10 "a"] /\
             GlobalSegment.end_sec (GlobalSegment.mk 0 20 "a")
               = GlobalSegment.end_sec s).
Proof.
  apply (merge_output_from_input
           [GlobalSegment.mk 9 20 "b"; GlobalSegment.mk 0 10 "a"] 2
           (GlobalSegment.mk 0 20 "a")).
  vm_compute. left. reflexivity.
Defined.

(** X11. The merger never adds segments and never loses all of them: the
    output is no longer than the input, and it is empty only for the
    empty input. *)
Theorem merge_length (segments : list GlobalSegment.t) (gap_sec : Q) :
  (List.length (merge_overlapping_or_adjacent segments gap_sec)
   <= List.length segments)%nat /\
  (merge_overlapping_or_adjacent segments gap_sec = [] <-> segments = []).
Proof.
  rewrite merge_is_sweep.
  pose proof (sorted_length key_lt segments) as Hlen.
  destruct (sorted key_lt segments) as [|first rest].
  - destruct segments; [|discriminate]. simpl. split; [lia | tauto].
  - pose proof (sweep_length gap_sec rest first) as Hs. simpl in Hlen.
    split; [lia|]. split; intros H.
    + rewrite H in Hs. simpl in Hs. lia.
    + subst segments. discriminate.
Qed.

(** X12. What the merger is for: two input segments, valid and with a
    tolerance [>= 0], of which the later one starts no more than
    [gap_sec] after the earlier one ends (they overlap, touch or are
    within the gap), lie inside one and the same output segment. *)
Theorem merge_joins_near_segments
    (segments : list GlobalSegment.t) (gap_sec : Q) (s1 s2 : GlobalSegment.t) :
  Forall seg_valid segments ->
  0 <= gap_sec ->
  In s1 segments -> In s2 segments ->
  GlobalSegment.start_sec s1 <= GlobalSegment.start_sec s2 ->
  GlobalSegment.start_sec s2 <= GlobalSegment.end_sec s1 + gap_sec ->
  exists o, In o (merge_overlapping_or_adjacent segments gap_sec) /\
            covered_by s1 o /\ covered_by s2 o.
Proof.
  intros Hv Hg H1 H2 Hord Hnear. rewrite merge_is_sweep.
  pose proof (sorted_StronglySorted segments) as Hs.
  pose proof (fun z => sorted_in key_lt z segments) as Hin.
  assert (Hvs : Forall seg_valid (sorted key_lt segments)).
  { rewrite Forall_forall in *. intros x Hx. apply Hv. now apply Hin. }
  apply Hin in H1. apply Hin in H2.
  destruct (sorted key_lt segments) as [|first rest]; [destruct H1|].
  now apply sweep_joins.
Qed.

Lemma merge_joins_near_segments_witness :
  exists o,
    In o (merge_overlapping_or_adjacent
            [GlobalSegment.mk 25 30 "c"; GlobalSegment.mk 9 20 "b";
             GlobalSegment.mk 0 10 "a"; GlobalSegment.mk 21 23 "d"] 2) /\
    covered_by (GlobalSegment.mk 9 20 "b") o /\
    covered_by (GlobalSegment.mk 21 23 "d") o.
Proof.
  apply (merge_joins_near_segments
           [GlobalSegment.mk 25 30 "c"; GlobalSegment.mk 9 20 "b";
            GlobalSegment.mk 0 10 "a"; GlobalSegment.mk 21 23 "d"] 2
           (GlobalSegment.mk 9 20 "b") (GlobalSegment.mk 21 23 "d")).
  - repeat constructor.
  - unfold Qle. simpl. lia.
  - simpl. auto.
  - simpl. auto.
  - unfold Qle. simpl. lia.
  - unfold Qle. simpl. lia.
Defined.

Lemma not_joined_beyond_gap (gap_sec : Q) (segments : list GlobalSegment.t) :
  Sorted (not_joined gap_sec) segments -> Sorted (beyond_gap gap_sec) segments.
Proof.
  induction 1 as [|a l Hs IH Hh]; constructor; [exact IH|].
  destruct Hh as [|b l Hab]; constructor.
  unfold not_joined in Hab. unfold beyond_gap. lra.
Qed.

(** X13. A list that is already sorted by [(start, end)] and in which
    the merger's test fails for every pair of neighbours - each segment
    starts after [end + gap_sec] of the one before it - is returned
    unchanged. *)
Theorem merge_leaves_separated_list
    (segments : list GlobalSegment.t) (gap_sec : Q) :
  StronglySorted key_le segments ->
  Sorted (not_joined gap_sec) segments ->
  merge_overlapping_or_adjacent segments gap_sec = segments.
Proof.
  intros Hk Hg. apply not_joined_beyond_gap in Hg.
  rewrite merge_is_sweep, (sorted_fixpoint segments Hk).
  destruct segments as [|first rest]; [reflexivity|].
  now apply sweep_fixpoint.
Qed.

Lemma merge_leaves_separated_list_witness :
  merge_overlapping_or_adjacent
    [GlobalSegment.mk 0 20 "a"; GlobalSegment.mk 25 30 "c"] 2
  = [GlobalSegment.mk 0 20 "a"; GlobalSegment.mk 25 30 "c"].
Proof.
  apply (merge_leaves_separated_list
           [GlobalSegment.mk 0 20 "a"; GlobalSegment.mk 25 30 "c"] 2).
  - repeat constructor.
  - repeat constructor.
Defined.

Lemma merge_within_valid
    (segments : list GlobalSegment.t) (gap_sec lo hi : Q) :
  Forall seg_valid segments ->
  Forall (within lo hi) segments ->
  Forall (fun o => seg_valid o /\ within lo hi o)
         (merge_overlapping_or_adjacent segments gap_sec).
Proof.
  intros Hv Hw.
  pose proof (merge_valid segments gap_sec Hv) as Hov.
  rewrite Forall_forall in *. intros o Ho. split; [now apply Hov|].
  destruct (merge_output_origin_aux segments gap_sec o Ho)
    as [(s1 & H1 & E1 & _) (s2 & H2 & E2)].
  unfold within. rewrite E1, E2.
  split; [apply (Hw s1 H1) | apply (Hw s2 H2)].
Qed.

(** X14. The merger keeps the segments well-formed and inside the extent
    of its input: from valid segments within [[lo, hi]] it produces valid
    segments within [[lo, hi]]. *)
Theorem merge_stays_within
    (segments : list GlobalSegment.t) (gap_sec lo hi : Q) :
  Forall seg_valid segments ->
  Forall (within lo hi) segments ->
  Forall (fun o => seg_valid o /\ within lo hi o)
         (merge_overlapping_or_adjacent segments gap_sec).
Proof. apply merge_within_valid. Qed.

Lemma merge_stays_within_witness :
  Forall (fun o => seg_valid o /\ within 0 100 o)
         (merge_overlapping_or_adjacent
            [GlobalSegment.mk 83 (171 # 2) "b"; GlobalSegment.mk 1 (7 # 2) "a"] 2).
Proof.
  apply (merge_stays_within
           [GlobalSegment.mk 83 (171 # 2) "b"; GlobalSegment.mk 1 (7 # 2) "a"]
           2 0 100).
  - repeat constructor.
  - repeat constructor; unfold Qle; simpl; lia.
Defined.

(* ------------------------------------------------------------------ *)
(** ** Duration capper: fixed points, use of the budget, composition *)

Section CapperMore.
Variable max_duration_sec : Q.

Lemma run_total_grows (l : list GlobalSegment.t) :
  Forall (fun s => 0 <= seg_duration s) l ->
  forall total, total <= run_total total l.
Proof.
  induction 1 as [|s l Hs _ IH]; intros total; simpl; [lra|].
  specialize (IH (total + seg_duration s)). unfold run_total in *. simpl. lra.
Qed.

(** Segments that fit one after the other are all appended. *)
Lemma cap_loop_whole (whole : list GlobalSegment.t) :
  forall total result rest,
    (forall k, (0 < k <= List.length whole)%nat ->
       run_total total (firstn k whole) <= max_duration_sec) ->
    cap_loop max_duration_sec total result (whole ++ rest) =
    cap_loop max_duration_sec (run_total total whole) (result ++ whole) rest.
Proof.
  induction whole as [|s whole IH]; intros total result rest Hfit; simpl.
  - now rewrite app_nil_r.
  - pose proof (Hfit 1%nat) as H1. simpl in H1.
    destruct (Qleb_spec
                (total + (GlobalSegment.end_sec s - GlobalSegment.start_sec s))
                max_duration_sec) as [_|Hno].
    + rewrite IH.
      * rewrite <- app_assoc. reflexivity.
      * intros k Hk. apply (Hfit (S k)). simpl. lia.
    + exfalso. apply Hno. apply H1. lia.
Qed.
End CapperMore.

(** X15. Segments that fit the budget are returned unchanged: when no
    segment has a negative duration and the total duration is within
    [max_duration_sec], the capper is the identity. *)
Theorem cap_total_duration_within_budget
    (segments : list GlobalSegment.t) (max_duration_sec : Q) :
  Forall (fun s => 0 <= seg_duration s) segments ->
  total_duration segments <= max_duration_sec ->
  cap_total_duration segments max_duration_sec = segments.
Proof.
  intros Hd Hfit. unfold cap_total_duration.
  rewrite <- (app_nil_r segments) at 1.
  rewrite cap_loop_whole; [simpl; reflexivity|].
  intros k Hk.
  rewrite <- (firstn_skipn k segments) in Hfit, Hd.
  unfold total_duration in Hfit. rewrite run_total_app in Hfit.
  apply Forall_app in Hd. destruct Hd as [_ Hd].
  pose proof (run_total_grows (skipn k segments) Hd
                (run_total 0 (firstn k segments))).
  lra.
Qed.

Lemma cap_total_duration_within_budget_witness :
  cap_total_duration
    [GlobalSegment.mk 0 20 "a"; GlobalSegment.mk 25 30 "c"] 240
  = [GlobalSegment.mk 0 20 "a"; GlobalSegment.mk 25 30 "c"].
Proof.
  apply (cap_total_duration_within_budget
           [GlobalSegment.mk 0 20 "a"; GlobalSegment.mk 25 30 "c"] 240).
  - repeat constructor; unfold seg_duration, Qle; simpl; lia.
  - vm_compute. discriminate.
Defined.

(** X16. Capping is idempotent: capping an already capped list with the
    same budget changes nothing. *)
Theorem cap_total_duration_idempotent
    (segments : list GlobalSegment.t) (max_duration_sec : Q) :
  cap_total_duration (cap_total_duration segments max_duration_sec)
    max_duration_sec
  = cap_total_duration segments max_duration_sec.
Proof.
  destruct (cap_loop_prefix max_duration_sec segments 0 [])
    as (whole & later & extra & E1 & E2 & Hk & Hl).
  unfold cap_total_duration. rewrite E2. simpl.
  rewrite (cap_loop_whole max_duration_sec whole 0 [] extra Hk). simpl.
  destruct later as [|s later]; [subst extra; simpl; now rewrite app_nil_r|].
  destruct Hl as [_ ->].
  destruct (Qltb_spec 1 (max_duration_sec - run_total 0 whole));
    [|simpl; now rewrite app_nil_r].
  simpl.
  destruct (Qleb_spec
              (run_total 0 whole +
               (GlobalSegment.start_sec s + (max_duration_sec - run_total 0 whole)
                - GlobalSegment.start_sec s))
              max_duration_sec) as [_|Hno]; [reflexivity|].
  exfalso. apply Hno. lra.
Qed.

(** X17. When the capper drops or shortens anything, the budget is used
    up to the last second: for a budget [>= 0], either the input comes
    back unchanged, or the result ends with a cut segment that is given
    all that is left of the budget, more than a second, or the result
    is a prefix of the input within the budget that leaves at most one
    second of it unused. *)
Theorem cap_total_duration_uses_budget
    (segments : list GlobalSegment.t) (max_duration_sec : Q) :
  0 <= max_duration_sec ->
  cap_total_duration segments max_duration_sec = segments \/
  (exists whole s later,
     segments = whole ++ s :: later /\
     cap_total_duration segments max_duration_sec =
       whole ++ [truncated s (max_duration_sec - total_duration whole)] /\
     total_duration whole <= max_duration_sec /\
     1 < max_duration_sec - total_duration whole) \/
  (exists later,
     segments = cap_total_duration segments max_duration_sec ++ later /\
     total_duration (cap_total_duration segments max_duration_sec)
       <= max_duration_sec /\
     max_duration_sec
       - total_duration (cap_total_duration segments max_duration_sec) <= 1).
Proof.
  intros Hmax.
  destruct (cap_loop_prefix max_duration_sec segments 0 [])
    as (whole & later & extra & E1 & E2 & Hk & Hl).
  simpl in E2. fold (cap_total_duration segments max_duration_sec) in E2.
  rewrite E2.
  assert (Hw : total_duration whole <= max_duration_sec).
  { unfold total_duration. destruct whole as [|w0 whole']; [exact Hmax|].
    pose proof (Hk (List.length (w0 :: whole'))) as H.
    rewrite firstn_all in H. apply H. simpl. lia. }
  destruct later as [|s later].
  - left. subst extra. now rewrite E1.
  - right. destruct Hl as [Hover ->]. fold (total_duration whole).
    destruct (Qltb_spec 1 (max_duration_sec - total_duration whole)) as [H|H].
    + left. exists whole, s, later.
      split; [exact E1 | split; [reflexivity | split; lra]].
    + right. rewrite app_nil_r. exists (s :: later).
      split; [exact E1 | split; lra].
Qed.

Lemma cap_total_duration_uses_budget_witness :
  cap_total_duration
    [GlobalSegment.mk 0 10 "a"; GlobalSegment.mk 10 200 "b"] 15
  = [GlobalSegment.mk 0 10 "a"; GlobalSegment.mk 10 200 "b"] \/
  (exists whole s later,
     [GlobalSegment.mk 0 10 "a"; GlobalSegment.mk 10 200 "b"] =
       whole ++ s :: later /\
     cap_total_duration
       [GlobalSegment.mk 0 10 "a"; GlobalSegment.mk 10 200 "b"] 15 =
       whole ++ [truncated s (15 - total_duration whole)] /\
     total_duration whole <= 15 /\
     1 < 15 - total_duration whole) \/
  (exists later,
     [GlobalSegment.mk 0 10 "a"; GlobalSegment.mk 10 200 "b"] =
       cap_total_duration
         [GlobalSegment.mk 0 10 "a"; GlobalSegment.mk 10 200 "b"] 15 ++ later /\
     total_duration
       (cap_total_duration
          [GlobalSegment.mk 0 10 "a"; GlobalSegment.mk 10 200 "b"] 15) <= 15 /\
     15 - total_duration
            (cap_total_duration
               [GlobalSegment.mk 0 10 "a"; GlobalSegment.mk 10 200 "b"] 15)
       <= 1).
Proof.
  apply (cap_total_duration_uses_budget
           [GlobalSegment.mk 0 10 "a"; GlobalSegment.mk 10 200 "b"] 15).
  unfold Qle. simpl. lia.
Defined.

(** *** Capping a separated list *)

Lemma Sorted_app_l {A : Type} (R : A -> A -> Prop) (a b : list A) :
  Sorted R (a ++ b) -> Sorted R a.
Proof.
  induction a as [|x a IH]; simpl; intros H; [constructor|].
  inversion H as [|? ? Hs Hh]; subst.
  constructor; [now apply IH|].
  destruct a as [|y a]; [constructor|]. simpl in Hh. inversion Hh; subst.
  now constructor.
Qed.

Lemma Sorted_replace_last {A : Type} (R : A -> A -> Prop) (a t : list A)
    (s s' : A) :
  (forall x, R x s -> R x s') ->
  Sorted R (a ++ s :: t) -> Sorted R (a ++ [s']).
Proof.
  intros HR. induction a as [|x a IH]; simpl; intros H.
  - repeat constructor.
  - inversion H as [|? ? Hs Hh]; subst.
    constructor; [now apply IH|].
    destruct a as [|y a]; simpl in *; inversion Hh; subst; constructor; auto.
Qed.

(** The shape of the capper's result: a prefix of the input, then nothing
    or the next segment cut shorter, by more than a second. *)
Lemma cap_shape (segments : list GlobalSegment.t) (max_duration_sec : Q) :
  exists whole later extra,
    segments = whole ++ later /\
    cap_total_duration segments max_duration_sec = whole ++ extra /\
    (extra = [] \/
     exists s later' remaining,
       later = s :: later' /\ extra = [truncated s remaining] /\
       1 < remaining /\
       GlobalSegment.start_sec s + remaining < GlobalSegment.end_sec s).
Proof.
  destruct (cap_loop_prefix max_duration_sec segments 0 [])
    as (whole & later & extra & E1 & E2 & _ & Hl).
  exists whole, later, extra. split; [exact E1|]. split; [exact E2|].
  destruct later as [|s later]; [now left|].
  destruct Hl as [Hover ->].
  destruct (Qltb_spec 1 (max_duration_sec - run_total 0 whole)); [|now left].
  right. exists s, later, (max_duration_sec - run_total 0 whole).
  repeat split; try assumption. unfold seg_duration in Hover. lra.
Qed.

Lemma cap_valid (segments : list GlobalSegment.t) (max_duration_sec : Q) :
  Forall seg_valid segments ->
  Forall seg_valid (cap_total_duration segments max_duration_sec).
Proof.
  intros Hv.
  destruct (cap_shape segments max_duration_sec)
    as (whole & later & extra & -> & -> & Hx).
  apply Forall_app in Hv. destruct Hv as [Hv1 Hv2].
  apply Forall_app. split; [assumption|].
  destruct Hx as [->|(s & later' & r & -> & -> & Hr & Hend)]; [constructor|].
  constructor; [|constructor]. unfold seg_valid. simpl. lra.
Qed.


Lemma cap_separated (segments : list GlobalSegment.t)
    (max_duration_sec gap_sec : Q) :
  Sorted (beyond_gap gap_sec) segments ->
  Sorted (beyond_gap gap_sec) (cap_total_duration segments max_duration_sec).
Proof.
  intros Hs.
  destruct (cap_shape segments max_duration_sec)
    as (whole & later & extra & -> & -> & Hx).
  destruct Hx as [->|(s & later' & r & -> & -> & Hr & Hend)].
  - rewrite app_nil_r. eapply Sorted_app_l; eauto.
  - eapply Sorted_replace_last; [|exact Hs].
    intros x Hx. unfold beyond_gap in *. simpl. exact Hx.
Qed.

(** Valid segments whose neighbours are beyond a tolerance [>= 0] are
    strictly ordered by start and pairwise disjoint. *)
Lemma separated_pairwise (gap_sec : Q) (l : list GlobalSegment.t) :
  0 <= gap_sec ->
  Forall seg_valid l -> Sorted (beyond_gap gap_sec) l ->
  StronglySorted starts_before l /\ ForallOrdPairs ends_before l.
Proof.
  intros Hg. induction l as [|a l IH]; intros Hv Hs;
    [split; constructor|].
  inversion Hv as [|? ? Ha Hv']; subst.
  pose proof (beyond_gap_all_later gap_sec l Hg a Hs Hv') as Hall.
  inversion Hs; subst.
  destruct IH as [IH1 IH2]; try assumption.
  split; constructor; try assumption;
    (eapply Forall_impl; [|exact Hall]); intros b Hb;
    unfold starts_before, ends_before, seg_valid in *; simpl in Hb; lra.
Qed.

Lemma Forall_removelast {A : Type} (P : A -> Prop) (l : list A) :
  Forall P l -> Forall P (removelast l).
Proof.
  induction 1 as [|x l Hx Hl IH]; simpl; [constructor|].
  destruct l; [constructor|]. constructor; assumption.
Qed.

Lemma seg_valid_ordered (l : list GlobalSegment.t) :
  Forall seg_valid l -> Forall seg_ordered l.
Proof.
  apply Forall_impl. intros s H. unfold seg_valid, seg_ordered in *. lra.
Qed.

(** X18. Capping after merging keeps what merging established: for valid
    segments and a tolerance [>= 0], the capped merge is strictly sorted
    by start, pairwise non-overlapping, with neighbours more than the
    tolerance apart; none of its segments is reversed, and all of them
    but possibly the last - the one the capper may have cut - are
    valid. *)
Theorem cap_after_merge_keeps_order
    (segments : list GlobalSegment.t) (gap_sec max_duration_sec : Q) :
  Forall seg_valid segments ->
  0 <= gap_sec ->
  let out :=
    cap_total_duration (merge_overlapping_or_adjacent segments gap_sec)
      max_duration_sec in
  Forall seg_ordered out /\
  Forall seg_valid (removelast out) /\
  StronglySorted starts_before out /\
  ForallOrdPairs ends_before out /\
  Sorted (beyond_gap gap_sec) out.
Proof.
  intros Hv Hg out.
  pose proof (cap_valid _ max_duration_sec (merge_valid segments gap_sec Hv))
    as H1.
  pose proof (cap_separated _ max_duration_sec gap_sec
                (merge_beyond_gap segments gap_sec)) as H2.
  fold out in H1, H2.
  destruct (separated_pairwise gap_sec out Hg H1 H2) as [H3 H4].
  split; [now apply seg_valid_ordered|].
  split; [now apply Forall_removelast|].
  repeat split; assumption.
Qed.

Lemma cap_after_merge_keeps_order_witness :
  let out :=
    cap_total_duration
      (merge_overlapping_or_adjacent
         [GlobalSegment.mk 25 60 "c"; GlobalSegment.mk 0 10 "a";
          GlobalSegment.mk 9 20 "b"] 2) 30 in
  Forall seg_ordered out /\
  Forall seg_valid (removelast out) /\
  StronglySorted starts_before out /\
  ForallOrdPairs ends_before out /\
  Sorted (beyond_gap 2) out.
Proof.
  apply (cap_after_merge_keeps_order
           [GlobalSegment.mk 25 60 "c"; GlobalSegment.mk 0 10 "a";
            GlobalSegment.mk 9 20 "b"] 2 30).
  - repeat constructor.
  - unfold Qle. simpl. lia.
Defined.

(* ------------------------------------------------------------------ *)
(** ** Moment parser: what it returns *)

Section ParserInvariant.
Variable P : HighlightMoment.t -> Prop.
Hypothesis P_kept : forall start end_ reason,
  (start <? end_) && (0 <=? start) = true ->
  P (HighlightMoment.mk start end_ reason).

Lemma parse_line_keeps (moments moments' : list HighlightMoment.t)
    (line : string) :
  Forall P moments -> parse_line moments line = Ok moments' ->
  Forall P moments'.
Proof.
  intros Hall. unfold parse_line.
  destruct (re_match MOMENT_RE (strip line))
    as [[|g1 [|g2 [|g3 [|g4 groups]]]]|]; try (intros [= <-]; exact Hall).
  destruct (py_float g1) as [start|e]; simpl; [|discriminate].
  destruct (py_float g2) as [end_|e]; simpl; [|discriminate].
  destruct ((start <? end_) && (0 <=? start)) eqn:E; intros [= <-];
    [|exact Hall].
  apply Forall_app. split; [exact Hall|]. constructor; [|constructor].
  now apply P_kept.
Qed.

Lemma parse_lines_keeps (lines : list string) :
  forall acc moments,
    (forall ms, acc = Ok ms -> Forall P ms) ->
    fold_left (fun acc line => moments <- acc ;; parse_line moments line)
              lines acc = Ok moments ->
    Forall P moments.
Proof.
  induction lines as [|line lines IH]; intros acc moments Hacc; simpl.
  - intros ->. now apply Hacc.
  - apply IH. intros ms Hms.
    destruct acc as [ms0|e]; simpl in Hms; [|discriminate].
    eapply parse_line_keeps; [|exact Hms]. now apply Hacc.
Qed.
End ParserInvariant.

(** X19. Every moment that [parse_moments] returns is well-formed:
    [0 <= start < end].  Lines with [end <= start] are dropped, not
    returned. *)
Theorem parse_moments_well_formed (text : string)
    (moments : list HighlightMoment.t) :
  parse_moments text = Ok moments ->
  Forall (fun m => 0 <= HighlightMoment.start_sec m /\
                   HighlightMoment.start_sec m < HighlightMoment.end_sec m)
         moments.
Proof.
  unfold parse_moments.
  destruct (String.eqb text "" || contains "NONE" (upper text));
    [intros [= <-]; constructor|].
  apply parse_lines_keeps.
  - intros start end_ reason E. apply andb_true_iff in E. destruct E as [E1 E2].
    simpl. destruct (Qltb_spec start end_); [|discriminate].
    destruct (Qleb_spec 0 start); [|discriminate]. split; assumption.
  - intros ms [= <-]. constructor.
Qed.

Lemma parse_moments_well_formed_witness :
  Forall (fun m => 0 <= HighlightMoment.start_sec m /\
                   HighlightMoment.start_sec m < HighlightMoment.end_sec m)
         [HighlightMoment.mk 2 5 "good"].
Proof.
  apply (parse_moments_well_formed "MOMENT: 5 2 bad
MOMENT: 2 5 good").
  reflexivity.
Defined.

(* ------------------------------------------------------------------ *)
(** ** Pipeline orchestrator: validation and the returned summary *)

(** X20. [run_pipeline] validates before it calls any collaborator: with
    an empty video path or a path that is not a file it raises
    [FileNotFoundError], and otherwise, with no API key in the
    configuration nor in the environment, it raises [ValueError] -
    whatever the prober, extractor, analyzer and assembler would do. *)
Theorem run_pipeline_validates_first (w : World.t) (config : HighlightConfig.t) :
  (HighlightConfig.video_path config = ""%string \/
   World.is_file w (HighlightConfig.video_path config) = false ->
   run_pipeline w config = Raise FileNotFoundError) /\
  (HighlightConfig.video_path config <> ""%string ->
   World.is_file w (HighlightConfig.video_path config) = true ->
   HighlightConfig.gemini_api_key config = ""%string ->
   World.environ_GEMINI_API_KEY w = ""%string ->
   run_pipeline w config = Raise ValueError).
Proof.
  unfold run_pipeline. split.
  - intros [H|H]; rewrite H; [reflexivity|].
    now rewrite orb_true_r.
  - intros Hp Hf Hk He. apply String.eqb_neq in Hp.
    rewrite Hp, Hf, Hk, He. reflexivity.
Qed.








(* ------------------------------------------------------------------ *)
(** ** Chunk file names *)

Lemma nat_of_digits_zeros (k : nat) (s : string) :
  nat_of_digits (zeros k ++ s) = nat_of_digits s.
Proof.
  induction k as [|k IH]; simpl; [reflexivity|].
  rewrite <- IH. unfold nat_of_digits. simpl.
  destruct (DecimalString.NilEmpty.uint_of_string (zeros k ++ s)) as [d|]; reflexivity.
Qed.

Lemma nat_of_digits_of_nat (n : nat) : nat_of_digits (digits_of_nat n) = Some n.
Proof.
  unfold nat_of_digits, digits_of_nat. rewrite DecimalString.NilEmpty.usu. simpl.
  now rewrite DecimalNat.Unsigned.of_to.
Qed.

Lemma zero_pad_inj (width : nat) (n n' : nat) :
  zero_pad width (digits_of_nat n) = zero_pad width (digits_of_nat n') -> n = n'.
Proof.
  intros H. apply (f_equal nat_of_digits) in H. unfold zero_pad in H.
  rewrite !nat_of_digits_zeros, !nat_of_digits_of_nat in H. congruence.
Qed.

Lemma all_chars_app p a b :
  all_chars p (a ++ b) = all_chars p a && all_chars p b.
Proof.
  induction a as [|c a IH]; simpl; [reflexivity|].
  now rewrite IH, andb_assoc.
Qed.

Lemma string_of_uint_digits (d : Decimal.uint) :
  all_chars is_digit (DecimalString.NilEmpty.string_of_uint d) = true.
Proof. induction d; simpl; auto. Qed.

Lemma zeros_digits k : all_chars is_digit (zeros k) = true.
Proof. induction k; simpl; auto. Qed.

Lemma zero_pad_digits width n :
  all_chars is_digit (zero_pad width (digits_of_nat n)) = true.
Proof.
  unfold zero_pad, digits_of_nat.
  now rewrite all_chars_app, zeros_digits, string_of_uint_digits.
Qed.

Lemma digits_of_nat_nonempty n : digits_of_nat n <> EmptyString.
Proof.
  unfold digits_of_nat. intros H.
  assert (Hn : Nat.to_uint n <> Decimal.Nil).
  { rewrite <- (DecimalNat.Unsigned.of_to n) at 1. rewrite DecimalNat.Unsigned.to_of.
    apply DecimalFacts.unorm_nonnil. }
  destruct (Nat.to_uint n); simpl in H; congruence.
Qed.

Lemma zero_pad_head width n :
  exists c rest, zero_pad width (digits_of_nat n) = String c rest /\ is_digit c = true.
Proof.
  pose proof (zero_pad_digits width n) as Hd.
  pose proof (digits_of_nat_nonempty n) as Hn.
  unfold zero_pad in *.
  destruct (zeros (width - String.length (digits_of_nat n))) as [|c z]; simpl in *.
  - destruct (digits_of_nat n) as [|c r]; [congruence|].
    simpl in Hd. apply andb_true_iff in Hd. exists c, r. tauto.
  - apply andb_true_iff in Hd. eexists _, _. split; [reflexivity | tauto].
Qed.

Lemma format_d_inj (width : nat) (z z' : Z) :
  format_d width z = format_d width z' -> z = z'.
Proof.
  unfold format_d.
  destruct (Z.ltb_spec z 0) as [Hz|Hz]; destruct (Z.ltb_spec z' 0) as [Hz'|Hz'];
    intros H.
  - injection H as H'. apply zero_pad_inj in H'. lia.
  - destruct (zero_pad_head width (Z.to_nat z')) as (c & r & E & Hc).
    rewrite E in H. injection H as <- _. discriminate Hc.
  - destruct (zero_pad_head width (Z.to_nat z)) as (c & r & E & Hc).
    rewrite E in H. injection H as -> _. discriminate Hc.
  - apply zero_pad_inj in H. lia.
Qed.

Lemma format_d_numeric width z : all_chars numeric (format_d width z) = true.
Proof.
  assert (Hw : forall s, all_chars is_digit s = true -> all_chars numeric s = true).
  { induction s as [|c s IH]; simpl; [reflexivity|].
    intros H. apply andb_true_iff in H. destruct H as [H1 H2].
    unfold numeric at 1. rewrite H1. simpl. auto. }
  unfold format_d. destruct (z <? 0)%Z; simpl.
  - apply Hw, zero_pad_digits.
  - apply Hw, zero_pad_digits.
Qed.

(** A run of characters of a class, closed by a character outside it,
    can be read back in one way only. *)
Lemma split_unique (p : ascii -> bool) (sep : ascii) (a b r r' : string) :
  p sep = false ->
  all_chars p a = true -> all_chars p b = true ->
  (a ++ String sep r = b ++ String sep r')%string -> a = b /\ r = r'.
Proof.
  intros Hsep. revert b.
  induction a as [|c a IH]; intros [|c' b] Ha Hb H; simpl in *.
  - injection H as ->. auto.
  - injection H as <- _. apply andb_true_iff in Hb. destruct Hb; congruence.
  - injection H as -> _. apply andb_true_iff in Ha. destruct Ha; congruence.
  - injection H as -> H. apply andb_true_iff in Ha, Hb.
    destruct (IH b) as [-> ->]; tauto.
Qed.

Lemma time_label_inj sec1 sec2 :
  _time_label sec1 = _time_label sec2 -> py_int sec1 = py_int sec2.
Proof.
  unfold _time_label. intros H.
  apply (split_unique numeric "m") in H;
    [|reflexivity|apply format_d_numeric|apply format_d_numeric].
  destruct H as [Hm H].
  apply (split_unique numeric "s") in H;
    [|reflexivity|apply format_d_numeric|apply format_d_numeric].
  destruct H as [Hs _].
  apply format_d_inj in Hm, Hs.
  rewrite (Z.div_mod (py_int sec1) 60), (Z.div_mod (py_int sec2) 60); lia.
Qed.


Lemma time_label_chars (sec : Q) : all_chars label_char (_time_label sec) = true.
Proof.
  assert (Hw : forall s, all_chars numeric s = true ->
                         all_chars label_char s = true).
  { induction s as [|c s IH]; simpl; [reflexivity|].
    intros H. apply andb_true_iff in H. destruct H as [H1 H2].
    unfold label_char at 1. rewrite H1. simpl. auto. }
  unfold _time_label. rewrite !all_chars_app.
  rewrite (Hw _ (format_d_numeric 2 (py_int sec / 60)%Z)).
  rewrite (Hw _ (format_d_numeric 2 (py_int sec mod 60)%Z)). reflexivity.
Qed.

Lemma chunk_file_label_inj (i j : nat) (s e s' e' : Q) :
  chunk_file_label i s e = chunk_file_label j s' e' ->
  i = j /\ py_int s = py_int s' /\ py_int e = py_int e'.
Proof.
  unfold chunk_file_label. intros H.
  apply (f_equal (str_drop 6)) in H. cbn [str_drop append] in H.
  apply (split_unique numeric "_") in H;
    [|reflexivity|apply format_d_numeric|apply format_d_numeric].
  destruct H as [Hi H]. apply format_d_inj in Hi.
  apply (split_unique label_char "_") in H;
    [|reflexivity|apply time_label_chars|apply time_label_chars].
  destruct H as [Hs H].
  apply (split_unique label_char ".") in H;
    [|reflexivity|apply time_label_chars|apply time_label_chars].
  destruct H as [He _].
  apply time_label_inj in Hs, He. repeat split; try assumption. lia.
Qed.

(** X22. The time label of a chunk boundary identifies its whole second:
    two times get the same label [MMmSSs] exactly when they truncate to
    the same number of seconds. *)
Theorem time_label_whole_seconds (sec1 sec2 : Q) :
  _time_label sec1 = _time_label sec2 <-> py_int sec1 = py_int sec2.
Proof.
  split; [apply time_label_inj|].
  unfold _time_label. now intros ->.
Qed.

(** X23. Chunks with different indices get different file names,
    whatever their time ranges. *)
Theorem chunk_file_label_distinct (i j : nat) (s e s' e' : Q) :
  i <> j -> chunk_file_label i s e <> chunk_file_label j s' e'.
Proof.
  intros Hij H. apply chunk_file_label_inj in H. tauto.
Qed.

Lemma chunk_file_label_distinct_witness :
  chunk_file_label 0 0 90 <> chunk_file_label 1 82 100.
Proof.
  apply (chunk_file_label_distinct 0 1 0 90 82 100). discriminate.
Defined.

Lemma mappings_from_paths (w : World.t) (work_dir : string)
    (intervals : list (Q * Q)) :
  forall i p,
    In p (map ChunkMapping.chunk_file_path
            (mappings_from w work_dir i intervals)) ->
    exists k start end_,
      (i <= k)%nat /\
      p = World.path_join w work_dir (World.chunk_label w k start end_).
Proof.
  induction intervals as [|[start end_] intervals IH]; intros i p; simpl;
    [intros []|].
  intros [<-|Hp].
  - exists i, start, end_. split; [lia | reflexivity].
  - destruct (IH _ _ Hp) as (k & s & e & Hk & ->).
    exists k, s, e. split; [lia | reflexivity].
Qed.

(** X24. No chunk file overwrites another: when the labels are those of
    the code and joining a directory with different names gives
    different paths, the chunk files of a successful
    [build_chunk_mappings] are pairwise distinct. *)
Theorem build_chunk_mappings_distinct_files
    (w : World.t) (source_video_path work_dir : string)
    (chunk_duration_sec overlap_sec duration_sec : Q)
    (mappings : list ChunkMapping.t) :
  (forall i start end_,
     World.chunk_label w i start end_ = chunk_file_label i start end_) ->
  (forall dir name1 name2,
     World.path_join w dir name1 = World.path_join w dir name2 ->
     name1 = name2) ->
  build_chunk_mappings w source_video_path work_dir chunk_duration_sec
    overlap_sec = Ok (mappings, duration_sec) ->
  NoDup (map ChunkMapping.chunk_file_path mappings).
Proof.
  intros Hlabel Hjoin. unfold build_chunk_mappings.
  destruct (World.get_video_duration_sec w source_video_path) as [d|e]; simpl;
    [|discriminate].
  destruct (build_chunks_with_overlap d chunk_duration_sec overlap_sec)
    as [intervals|e]; simpl; [|discriminate].
  destruct (extract_chunks w source_video_path work_dir 0 intervals [])
    as [ms|e] eqn:Ex; simpl; [|discriminate].
  intros [= <- _].
  destruct (extract_chunks_ok _ _ _ _ _ _ _ Ex) as [-> _]. simpl.
  generalize 0%nat. clear Ex.
  induction intervals as [|[start end_] intervals IH]; intros i; simpl;
    constructor; [|apply IH].
  intros Hin. destruct (mappings_from_paths _ _ _ _ _ Hin)
    as (k & s & e & Hk & E).
  apply Hjoin in E. rewrite !Hlabel in E.
  apply chunk_file_label_inj in E. lia.
Qed.

Lemma build_chunk_mappings_distinct_files_witness :
  NoDup (map ChunkMapping.chunk_file_path
           [ChunkMapping.mk 0 90 0 90 0 "chunks/chunk_0000_00m00s_01m30s.mp4";
            ChunkMapping.mk 82 100 0 18 1 "chunks/chunk_0001_01m22s_01m40s.mp4"]).
Proof.
  apply (build_chunk_mappings_distinct_files (healthy_world 100 "NONE")
           "match.mp4" "chunks" 90 8 100).
  - reflexivity.
  - intros dir name1 name2 H. simpl in H.
    induction dir as [|c dir IH]; simpl in H; injection H; auto.
  - vm_compute. reflexivity.
Defined.

(* ------------------------------------------------------------------ *)
(** ** Waiting for the uploaded file *)

Section WaitLoop.
Variable client : Gemini.t.
Variable file_name : string.

Local Abbreviation deadline :=
  (Gemini.monotonic client 0 + FILE_ACTIVE_WAIT_TIMEOUT_SEC).

(** The clock does not run backwards and every [time.sleep(5)] between
    two loop tests takes at least its 5 seconds. *)
Hypothesis clock_start : Gemini.monotonic client 0 <= Gemini.monotonic client 1.
Hypothesis clock_sleep : forall k,
  Gemini.monotonic client (S k) + FILE_ACTIVE_POLL_INTERVAL_SEC
    <= Gemini.monotonic client (S (S k)).

Lemma clock_reading (k : nat) :
  Gemini.monotonic client 0 + inject_Z (Z.of_nat k) * 5
    <= Gemini.monotonic client (S k).
Proof.
  induction k as [|k IH].
  - change (inject_Z (Z.of_nat 0)) with 0. lra.
  - pose proof (clock_sleep k) as Hs. rewrite inject_Z_succ.
    unfold FILE_ACTIVE_POLL_INTERVAL_SEC in Hs. lra.
Qed.

Lemma wait_loop_bounded (n : nat) :
  forall k, (k + n = 60)%nat ->
    exists r,
      (forall fuel, (S n <= fuel)%nat ->
         wait_loop fuel client file_name deadline k = Some r) /\
      (r = Ok tt ->
       exists j, (k <= j < 60)%nat /\
         Gemini.files_get client file_name j = Ok STATE_ACTIVE /\
         Gemini.monotonic client (S j) < deadline).
Proof.
  induction n as [|n IH]; intros k Hk.
  - exists (Raise TimeoutError). split; [|discriminate].
    intros [|fuel] Hf; [lia|]. simpl.
    destruct (Qltb_spec (Gemini.monotonic client (S k)) deadline) as [Hlt|_];
      [|reflexivity].
    pose proof (clock_reading k) as Hr.
    replace k with 60%nat in Hr, Hlt by lia.
    unfold FILE_ACTIVE_WAIT_TIMEOUT_SEC in Hlt.
    change (inject_Z (Z.of_nat 60) * 5) with 300 in Hr. lra.
  - destruct (Qltb_spec (Gemini.monotonic client (S k)) deadline) as [Hlt|Hge].
    + destruct (Gemini.files_get client file_name k) as [[| |]|e] eqn:Eg.
      * exists (Ok tt). split.
        -- intros [|fuel] Hf; [lia|]. simpl.
           destruct (Qltb_spec (Gemini.monotonic client (S k)) deadline);
             [|contradiction]. now rewrite Eg.
        -- intros _. exists k. repeat split; try assumption; lia.
      * exists (Raise RuntimeError). split; [|discriminate].
        intros [|fuel] Hf; [lia|]. simpl.
        destruct (Qltb_spec (Gemini.monotonic client (S k)) deadline);
          [|contradiction]. now rewrite Eg.
      * destruct (IH (S k)) as (r & Hr & Hok); [lia|].
        exists r. split.
        -- intros [|fuel] Hf; [lia|]. simpl.
           destruct (Qltb_spec (Gemini.monotonic client (S k)) deadline);
             [|contradiction]. rewrite Eg. apply Hr. lia.
        -- intros E. destruct (Hok E) as (j & Hj & H1 & H2).
           exists j. repeat split; try assumption; lia.
      * exists (Raise e). split.
        -- intros [|fuel] Hf; [lia|]. simpl.
           destruct (Qltb_spec (Gemini.monotonic client (S k)) deadline);
             [|contradiction]. now rewrite Eg.
        -- discriminate.
    + exists (Raise TimeoutError). split; [|discriminate].
      intros [|fuel] Hf; [lia|]. simpl.
      destruct (Qltb_spec (Gemini.monotonic client (S k)) deadline);
        [contradiction | reflexivity].
Qed.
End WaitLoop.

(** X25. The wait for an uploaded file is bounded.  When the clock does
    not run backwards and each sleep lasts at least the poll interval of
    5 seconds, [_wait_for_file_active] makes at most 61 loop tests, hence
    at most 60 polls, before it returns or raises; and it returns
    normally only if one of these polls, made before the deadline of
    300 seconds, saw the file ACTIVE. *)
Theorem wait_for_file_active_bounded (client : Gemini.t) (file_name : string) :
  Gemini.monotonic client 0 <= Gemini.monotonic client 1 ->
  (forall k,
     Gemini.monotonic client (S k) + FILE_ACTIVE_POLL_INTERVAL_SEC
       <= Gemini.monotonic client (S (S k))) ->
  exists r,
    (forall fuel, (61 <= fuel)%nat ->
       _wait_for_file_active fuel client file_name = Some r) /\
    (r = Ok tt ->
     exists j, (j < 60)%nat /\
       Gemini.files_get client file_name j = Ok STATE_ACTIVE /\
       Gemini.monotonic client (S j)
         < Gemini.monotonic client 0 + FILE_ACTIVE_WAIT_TIMEOUT_SEC).
Proof.
  intros H0 Hs.
  destruct (wait_loop_bounded client file_name H0 Hs 60 0 eq_refl)
    as (r & Hr & Hok).
  exists r. split; [exact Hr|].
  intros E. destruct (Hok E) as (j & Hj & H1 & H2).
  exists j. repeat split; try assumption; lia.
Qed.

Lemma wait_for_file_active_bounded_witness :
  exists r,
    (forall fuel, (61 <= fuel)%nat ->
       _wait_for_file_active fuel (slow_client 3 "NONE") "files/abc" = Some r) /\
    (r = Ok tt ->
     exists j, (j < 60)%nat /\
       Gemini.files_get (slow_client 3 "NONE") "files/abc" j = Ok STATE_ACTIVE /\
       Gemini.monotonic (slow_client 3 "NONE") (S j)
         < Gemini.monotonic (slow_client 3 "NONE") 0
           + FILE_ACTIVE_WAIT_TIMEOUT_SEC).
Proof.
  apply (wait_for_file_active_bounded (slow_client 3 "NONE") "files/abc").
  - unfold Qle. simpl. lia.
  - intros k. unfold slow_client, FILE_ACTIVE_POLL_INTERVAL_SEC, Qle. simpl. lia.
Defined.

(** X26. [analyze_chunk_with_gemini] never returns an empty text: a
    response without text is replaced by the sentinel NONE, so that the
    chunk yields no moment; any other response text is returned as it
    is. *)
Theorem analyze_chunk_never_empty (fuel : nat) (client : Gemini.t)
    (chunk_file_path model text : string) :
  analyze_chunk_with_gemini fuel client chunk_file_path model = Some (Ok text) ->
  text <> ""%string /\
  exists file_name response,
    Gemini.files_upload client chunk_file_path = Ok file_name /\
    Gemini.generate_content client model file_name = Ok response /\
    (response = ""%string -> parse_moments text = Ok []) /\
    (response <> ""%string -> text = response).
Proof.
  unfold analyze_chunk_with_gemini.
  destruct (negb _); [discriminate|].
  destruct (Gemini.files_upload client chunk_file_path) as [name|e];
    [|discriminate].
  destruct (String.eqb name ""); [discriminate|].
  destruct (_wait_for_file_active fuel client name) as [[[]|e]|];
    try discriminate.
  destruct (Gemini.generate_content client model name) as [response|e] eqn:Eg;
    [|discriminate].
  destruct (String.eqb_spec response "") as [->|Hne]; intros [= <-].
  - split; [discriminate|]. exists name, ""%string.
    repeat split; auto. congruence.
  - split; [exact Hne|]. exists name, response.
    repeat split; auto. congruence.
Qed.

Lemma analyze_chunk_never_empty_witness :
  "NONE"%string <> ""%string /\
  exists file_name response,
    Gemini.files_upload (slow_client 3 "") "chunk_0000.mp4" = Ok file_name /\
    Gemini.generate_content (slow_client 3 "") "gemini-2.5-flash" file_name
      = Ok response /\
    (response = ""%string -> parse_moments "NONE" = Ok []) /\
    (response <> ""%string -> "NONE"%string = response).
Proof.
  apply (analyze_chunk_never_empty 61 (slow_client 3 "") "chunk_0000.mp4"
           "gemini-2.5-flash" "NONE").
  vm_compute. reflexivity.
Defined.


(* ------------------------------------------------------------------ *)
(** ** Assembling the highlight video *)

Section Assembly.
Variable fx : Ffmpeg.t.

Local Abbreviation ok := (fun c => outcome fx c = Ok tt).

Lemma ok_unit (r : result unit) : r = Ok tt \/ exists e, r = Raise e.
Proof. destruct r as [[]|e]; [now left | right; now exists e]. Qed.

Lemma issue_in_order (call : ffmpeg_call) :
  is_probe call = false -> ran_in_order fx (issue fx call).
Proof.
  intros Hp. unfold ran_in_order, issue. simpl.
  assert (Ho : outcome fx call = Ffmpeg.run fx call)
    by (destruct call; try reflexivity; discriminate).
  destruct (Ffmpeg.run fx call) as [[]|e] eqn:E.
  - constructor; [congruence | constructor].
  - exists [], call. repeat split; [congruence | constructor].
Qed.

Lemma issue_probe_in_order (path : string) :
  ran_in_order fx (issue_probe fx path).
Proof.
  unfold ran_in_order, issue_probe. simpl.
  destruct (Ffmpeg.probe fx path) as [d|e] eqn:E.
  - constructor; [simpl; now rewrite E | constructor].
  - exists [], (ProbeDuration path). simpl. rewrite E.
    repeat split. constructor.
Qed.

Lemma tbind_in_order {A B : Type} (m : traced A) (k : A -> traced B) :
  ran_in_order fx m ->
  (forall a, snd m = Ok a -> ran_in_order fx (k a)) ->
  ran_in_order fx (tbind m k).
Proof.
  destruct m as [calls [a|e]]; unfold ran_in_order; simpl; intros Hm Hk.
  - specialize (Hk a eq_refl). destruct (k a) as [calls' [b|e]]; simpl in *.
    + apply Forall_app. split; assumption.
    + destruct Hk as (front & call & -> & Hc & Hf).
      exists (calls ++ front), call. rewrite app_assoc.
      repeat split; [exact Hc|]. apply Forall_app. split; assumption.
  - exact Hm.
Qed.

Lemma extract_segments_in_order (source_video work_dir : string)
    (segments : list GlobalSegment.t) :
  forall i segment_files,
    ran_in_order fx
      (extract_segments fx source_video work_dir i segments segment_files).
Proof.
  induction segments as [|seg segments IH]; intros i files.
  - unfold ran_in_order. simpl. constructor.
  - cbn [extract_segments]. apply tbind_in_order.
    + unfold extract_segment. now apply issue_in_order.
    + intros _ _. apply IH.
Qed.

(** When all extractions succeed, the commands issued are one extraction
    per segment, in order, and there is one file per segment. *)
Lemma extract_segments_ok (source_video work_dir : string)
    (segments : list GlobalSegment.t) :
  forall i segment_files calls files,
    extract_segments fx source_video work_dir i segments segment_files
      = (calls, Ok files) ->
    calls = extraction_calls fx source_video work_dir i segments /\
    List.length files = (List.length segment_files + List.length segments)%nat.
Proof.
  induction segments as [|seg segments IH]; intros i sf calls files; simpl.
  - intros [= <- <-]. split; [reflexivity | lia].
  - unfold extract_segment, issue. simpl.
    destruct (Ffmpeg.run fx _) as [[]|e]; [|discriminate].
    destruct (extract_segments fx source_video work_dir (S i) segments _)
      as [calls' r] eqn:E.
    intros [= <- ->]. destruct (IH _ _ _ _ E) as [-> Hlen]. split.
    + reflexivity.
    + rewrite Hlen, length_app. simpl. lia.
Qed.

Lemma extract_segments_files (source_video work_dir : string)
    (segments : list GlobalSegment.t) :
  forall i segment_files calls files,
    extract_segments fx source_video work_dir i segments segment_files
      = (calls, Ok files) ->
    files = segment_files ++ segment_paths fx work_dir i segments.
Proof.
  induction segments as [|seg segments IH]; intros i sf calls files; simpl.
  - intros [= _ <-]. now rewrite app_nil_r.
  - unfold extract_segment, issue. simpl.
    destruct (Ffmpeg.run fx _) as [[]|e]; [|discriminate].
    destruct (extract_segments fx source_video work_dir (S i) segments _)
      as [calls' r] eqn:E.
    intros [= _ ->]. rewrite (IH _ _ _ _ E), <- app_assoc. reflexivity.
Qed.

Lemma extract_segments_calls (source_video work_dir : string)
    (segments : list GlobalSegment.t) :
  forall i segment_files call,
    In call (fst (extract_segments fx source_video work_dir i segments
                    segment_files)) ->
    exists a b c d, call = ExtractSegment a b c d.
Proof.
  induction segments as [|seg segments IH]; intros i sf call; simpl;
    [intros []|].
  unfold extract_segment, issue. simpl.
  destruct (Ffmpeg.run fx _) as [[]|e]; simpl.
  - destruct (extract_segments fx source_video work_dir (S i) segments _)
      as [calls' r] eqn:E. simpl.
    intros [<-|Hin]; [now eexists _, _, _, _|].
    apply (IH (S i) (sf ++ [Ffmpeg.path_join fx work_dir (seg_file_name i)])).
    now rewrite E.
  - intros [<-|[]]. now eexists _, _, _, _.
Qed.
End Assembly.

Section AssemblyRun.
Variable fx : Ffmpeg.t.
Variables source_video output_path work_dir : string.
Variable crossfade_duration_sec : Q.

Local Abbreviation assemble segments :=
  (build_highlight_video fx source_video segments output_path work_dir
     crossfade_duration_sec).

Lemma build_highlight_video_in_order (segments : list GlobalSegment.t) :
  segments <> [] -> ran_in_order fx (assemble segments).
Proof.
  intros Hne. unfold build_highlight_video.
  apply tbind_in_order; [apply extract_segments_in_order|].
  intros files Hok.
  destruct (extract_segments fx source_video work_dir 0 segments [])
    as [calls r] eqn:E. simpl in Hok. subst r.
  destruct (extract_segments_ok _ _ _ _ _ _ _ _ E) as [_ Hlen]. simpl in Hlen.
  destruct files as [|p1 [|p2 files]].
  - destruct segments; [congruence | discriminate].
  - destruct segments as [|seg0 segments]; [congruence|].
    now apply issue_in_order.
  - apply tbind_in_order; [now apply issue_in_order|]. intros _ _.
    apply tbind_in_order; [now apply issue_in_order|]. intros _ _.
    apply tbind_in_order; [apply issue_probe_in_order|]. intros total_dur _.
    now apply issue_in_order.
Qed.

(** The commands of a run that got past the extractions. *)
Lemma build_highlight_video_calls (segments : list GlobalSegment.t)
    (call : ffmpeg_call) :
  In call (fst (assemble segments)) ->
  (exists a b c d, call = ExtractSegment a b c d) \/
  (exists a b, call = WriteConcatList a b) \/
  (exists a b, call = ConcatCopy a b) \/
  (exists a, call = ProbeDuration a) \/
  (exists seg0 rest seg_path,
     segments = seg0 :: rest /\
     call = FadeInOut seg_path
              (py_min crossfade_duration_sec
                 ((GlobalSegment.end_sec seg0 - GlobalSegment.start_sec seg0) / 4))
              (GlobalSegment.end_sec seg0 - GlobalSegment.start_sec seg0
               - py_min crossfade_duration_sec
                   ((GlobalSegment.end_sec seg0 - GlobalSegment.start_sec seg0) / 4))
              (Ffmpeg.path_resolve fx output_path)) \/
  (exists temp total_dur,
     Ffmpeg.probe fx temp = Ok total_dur /\
     call = FadeInOut temp
              (py_min crossfade_duration_sec (total_dur / 4))
              (total_dur - py_min crossfade_duration_sec (total_dur / 4))
              (Ffmpeg.path_resolve fx output_path)).
Proof.
  unfold build_highlight_video.
  pose proof (extract_segments_calls fx source_video work_dir segments 0 [])
    as Hex.
  destruct (extract_segments fx source_video work_dir 0 segments [])
    as [calls [files|e]]; simpl in *; [|intros H; left; now apply Hex].
  destruct files as [|p1 [|p2 files]].
  - simpl. rewrite app_nil_r. intros H. left. now apply Hex.
  - destruct segments as [|seg0 rest]; simpl.
    + rewrite app_nil_r. intros H. left. now apply Hex.
    + intros H. apply in_app_or in H. destruct H as [H|[<-|[]]];
        [left; now apply Hex|].
      do 4 right. left. now exists seg0, rest, p1.
  - unfold tbind, issue, issue_probe.
    destruct (Ffmpeg.run fx (WriteConcatList _ _)) as [[]|e1]; simpl.
    2: { intros H. apply in_app_or in H. destruct H as [H|[<-|[]]];
           [left; now apply Hex | right; left; now eexists _, _]. }
    destruct (Ffmpeg.run fx (ConcatCopy _ _)) as [[]|e2]; simpl.
    2: { intros H. apply in_app_or in H.
         destruct H as [H|[<-|[<-|[]]]];
           [left; now apply Hex | right; left; now eexists _, _
           | right; right; left; now eexists _, _]. }
    destruct (Ffmpeg.probe fx _) as [total_dur|e3] eqn:Ep; simpl.
    2: { intros H. apply in_app_or in H.
         destruct H as [H|[<-|[<-|[<-|[]]]]];
           [left; now apply Hex | right; left; now eexists _, _
           | right; right; left; now eexists _, _
           | right; right; right; left; now eexists _]. }
    intros H. apply in_app_or in H.
    destruct H as [H|[<-|[<-|[<-|[<-|[]]]]]];
      [left; now apply Hex | right; left; now eexists _, _
      | right; right; left; now eexists _, _
      | right; right; right; left; now eexists _ |].
    do 5 right. eexists _, total_dur. split; [exact Ep | reflexivity].
Qed.
End AssemblyRun.

(** X27. The fades of the final video never overlap and never exceed the
    configured crossfade: with a crossfade [>= 0], valid segments and a
    probe that reports durations [>= 0], every fade command issued by
    [build_highlight_video] has [0 <= fade_dur <= crossfade] and starts
    its fade-out no earlier than the fade-in ends. *)
Theorem build_highlight_video_fades (fx : Ffmpeg.t)
    (source_video output_path work_dir : string)
    (segments : list GlobalSegment.t) (crossfade_duration_sec : Q)
    (input output : string) (fade_dur fade_out_start : Q) :
  0 <= crossfade_duration_sec ->
  Forall seg_valid segments ->
  (forall path d, Ffmpeg.probe fx path = Ok d -> 0 <= d) ->
  In (FadeInOut input fade_dur fade_out_start output)
     (fst (build_highlight_video fx source_video segments output_path work_dir
             crossfade_duration_sec)) ->
  0 <= fade_dur /\ fade_dur <= crossfade_duration_sec /\
  fade_dur <= fade_out_start.
Proof.
  intros Hcf Hv Hprobe Hin.
  apply build_highlight_video_calls in Hin.
  destruct Hin as [(a & b & c & d & H)|[(a & b & H)|[(a & b & H)|[(a & H)|
                  [(seg0 & rest & p & -> & H)|(temp & total & Hp & H)]]]]];
    try discriminate.
  - injection H as _ -> -> _.
    inversion Hv as [|? ? Hs _]; subst. unfold seg_valid in Hs.
    remember (GlobalSegment.end_sec seg0 - GlobalSegment.start_sec seg0)
      as dur eqn:Edur.
    assert (Hd : 0 < dur) by (subst dur; lra).
    assert (Hq : dur / 4 * 4 == dur) by (field; discriminate).
    remember (dur / 4) as quarter eqn:Eq. clear Edur Eq.
    destruct (py_min_cases crossfade_duration_sec quarter) as [[? ->]|[? ->]];
      repeat split; lra.
  - injection H as _ -> -> _.
    pose proof (Hprobe _ _ Hp) as Hd.
    assert (Hq : total / 4 * 4 == total) by (field; discriminate).
    remember (total / 4) as quarter eqn:Eq. clear Eq.
    destruct (py_min_cases crossfade_duration_sec quarter) as [[? ->]|[? ->]];
      repeat split; lra.
Qed.

Lemma build_highlight_video_fades_witness :
  0 <= 1 # 2 /\ 1 # 2 <= 1 # 2 /\ 1 # 2 <= 59 # 2.
Proof.
  apply (build_highlight_video_fades (studio (-1) 30) "match.mp4" "out.mp4"
           "tmp" [GlobalSegment.mk 0 20 "a"; GlobalSegment.mk 25 35 "b"]
           (1 # 2) "tmp/temp_concat.mp4" "out.mp4" (1 # 2) (59 # 2)).
  - unfold Qle. simpl. lia.
  - repeat constructor.
  - intros path d [= <-]. unfold Qle. simpl. lia.
  - vm_compute. do 5 right. left. reflexivity.
Defined.

(** X28. A successful assembly ran every command it issued, in this
    order: one extraction per segment, in the order of the segments,
    each from the segment's start and for its duration to the file
    [seg_NNNN.mp4] of its index; then, for a single segment, the fade of
    that file to the resolved output path, with the fade length
    [min(crossfade, dur / 4)] and the fade-out at [dur - fade] for the
    segment's duration [dur]; for several segments, the list of the
    resolved segment files, their concatenation to [temp_concat.mp4],
    the probe of that file, and its fade to the resolved output path
    with the same formulas on the probed duration. *)
Theorem build_highlight_video_success (fx : Ffmpeg.t)
    (source_video output_path work_dir : string)
    (segments : list GlobalSegment.t) (crossfade_duration_sec : Q) :
  snd (build_highlight_video fx source_video segments output_path work_dir
         crossfade_duration_sec) = Ok tt ->
  segments <> [] /\
  Forall (fun c => outcome fx c = Ok tt)
         (fst (build_highlight_video fx source_video segments output_path
                 work_dir crossfade_duration_sec)) /\
  exists total_dur,
    (List.length segments <> 1%nat ->
     Ffmpeg.probe fx (Ffmpeg.path_join fx work_dir "temp_concat.mp4")
       = Ok total_dur) /\
    fst (build_highlight_video fx source_video segments output_path work_dir
           crossfade_duration_sec) =
    extraction_calls fx source_video work_dir 0 segments ++
    finishing_calls fx segments output_path work_dir crossfade_duration_sec
      total_dur.
Proof.
  intros Hok.
  assert (Hne : segments <> []).
  { intros ->. discriminate. }
  split; [exact Hne|].
  pose proof (build_highlight_video_in_order fx source_video output_path
                work_dir crossfade_duration_sec segments Hne) as Hord.
  unfold ran_in_order in Hord. rewrite Hok in Hord. split; [exact Hord|].
  clear Hord. revert Hok. unfold build_highlight_video.
  destruct (extract_segments fx source_video work_dir 0 segments [])
    as [calls [files|e]] eqn:E; [|discriminate].
  destruct (extract_segments_ok _ _ _ _ _ _ _ _ E) as [-> _].
  rewrite (extract_segments_files _ _ _ _ _ _ _ _ E).
  destruct segments as [|seg0 [|seg1 rest]]; [congruence| |].
  - cbn [segment_paths app tbind finishing_calls].
    intros _. exists 0. split; [intros H; now elim H | reflexivity].
  - cbn [segment_paths app finishing_calls].
    unfold tbind, issue, issue_probe.
    destruct (Ffmpeg.run fx (WriteConcatList _ _)) as [[]|e1]; [|discriminate].
    destruct (Ffmpeg.run fx (ConcatCopy _ _)) as [[]|e2]; [|discriminate].
    destruct (Ffmpeg.probe fx _) as [total_dur|e3] eqn:Ep; [|discriminate].
    intros _. exists total_dur. split; [intros _; reflexivity|].
    simpl. reflexivity.
Qed.

Lemma build_highlight_video_success_witness :
  [GlobalSegment.mk 0 20 "a"; GlobalSegment.mk 25 35 "b"] <> [] /\
  Forall (fun c => outcome (studio (-1) 30) c = Ok tt)
         (fst (build_highlight_video (studio (-1) 30) "match.mp4"
                 [GlobalSegment.mk 0 20 "a"; GlobalSegment.mk 25 35 "b"]
                 "out.mp4" "tmp" (1 # 2))) /\
  exists total_dur,
    (List.length [GlobalSegment.mk 0 20 "a"; GlobalSegment.mk 25 35 "b"]
       <> 1%nat ->
     Ffmpeg.probe (studio (-1) 30)
       (Ffmpeg.path_join (studio (-1) 30) "tmp" "temp_concat.mp4")
       = Ok total_dur) /\
    fst (build_highlight_video (studio (-1) 30) "match.mp4"
           [GlobalSegment.mk 0 20 "a"; GlobalSegment.mk 25 35 "b"]
           "out.mp4" "tmp" (1 # 2)) =
    extraction_calls (studio (-1) 30) "match.mp4" "tmp" 0
      [GlobalSegment.mk 0 20 "a"; GlobalSegment.mk 25 35 "b"] ++
    finishing_calls (studio (-1) 30)
      [GlobalSegment.mk 0 20 "a"; GlobalSegment.mk 25 35 "b"]
      "out.mp4" "tmp" (1 # 2) total_dur.
Proof.
  apply (build_highlight_video_success (studio (-1) 30) "match.mp4" "out.mp4"
           "tmp" [GlobalSegment.mk 0 20 "a"; GlobalSegment.mk 25 35 "b"]
           (1 # 2)).
  vm_compute. reflexivity.
Defined.

(** X29. A failed assembly stops at the failure: either there were no
    segments - then no command is issued and [ValueError] is raised - or
    the last command issued is the one that raised the exception, and
    every command before it had succeeded. *)
Theorem build_highlight_video_failure (fx : Ffmpeg.t)
    (source_video output_path work_dir : string)
    (segments : list GlobalSegment.t) (crossfade_duration_sec : Q) (e : exn) :
  snd (build_highlight_video fx source_video segments output_path work_dir
         crossfade_duration_sec) = Raise e ->
  (segments = [] /\ e = ValueError /\
   fst (build_highlight_video fx source_video segments output_path work_dir
          crossfade_duration_sec) = []) \/
  (exists front call,
     fst (build_highlight_video fx source_video segments output_path work_dir
            crossfade_duration_sec) = front ++ [call] /\
     outcome fx call = Raise e /\
     Forall (fun c => outcome fx c = Ok tt) front).
Proof.
  intros Hbad. destruct segments as [|seg0 rest].
  - left. simpl in *. injection Hbad as <-. auto.
  - right.
    pose proof (build_highlight_video_in_order fx source_video output_path
                  work_dir crossfade_duration_sec (seg0 :: rest)) as Hord.
    unfold ran_in_order in Hord. rewrite Hbad in Hord.
    apply Hord. discriminate.
Qed.

Lemma build_highlight_video_failure_witness :
  ([GlobalSegment.mk 0 20 "a"; GlobalSegment.mk 25 35 "b";
    GlobalSegment.mk 40 50 "c"] = [] /\ CalledProcessError = ValueError /\
   fst (build_highlight_video (studio 25 30) "match.mp4"
          [GlobalSegment.mk 0 20 "a"; GlobalSegment.mk 25 35 "b";
           GlobalSegment.mk 40 50 "c"] "out.mp4" "tmp" (1 # 2)) = []) \/
  (exists front call,
     fst (build_highlight_video (studio 25 30) "match.mp4"
            [GlobalSegment.mk 0 20 "a"; GlobalSegment.mk 25 35 "b";
             GlobalSegment.mk 40 50 "c"] "out.mp4" "tmp" (1 # 2))
       = front ++ [call] /\
     outcome (studio 25 30) call = Raise CalledProcessError /\
     Forall (fun c => outcome (studio 25 30) c = Ok tt) front).
Proof.
  apply (build_highlight_video_failure (studio 25 30) "match.mp4" "out.mp4"
           "tmp" [GlobalSegment.mk 0 20 "a"; GlobalSegment.mk 25 35 "b";
                  GlobalSegment.mk 40 50 "c"] (1 # 2) CalledProcessError).
  vm_compute. reflexivity.
Defined.

Lemma analyze_chunks_nothing (w : World.t) (config : HighlightConfig.t)
    (mappings : list ChunkMapping.t) :
  Forall (fun m => exists raw,
            World.analyze_chunk_with_gemini w (ChunkMapping.chunk_file_path m)
              (HighlightConfig.gemini_model config)
              (HighlightConfig.gemini_api_key config) = Ok raw /\
            contains "NONE" (upper raw) = true) mappings ->
  analyze_chunks w config mappings [] = Ok [].
Proof.
  induction 1 as [|m mappings (raw & Hraw & Hnone) _ IH]; simpl;
    [reflexivity|].
  unfold get_chunk_highlights. rewrite Hraw. simpl.
  rewrite (parse_moments_short_circuit raw Hnone). simpl. exact IH.
Qed.

(** X30. A run that finds no highlight does not return an empty reel.
    When the assembler is [build_highlight_video] and every chunk's
    response contains the sentinel NONE, [run_pipeline] - after
    validation, tiling and all analyses succeeded - raises [ValueError]
    from the assembly of zero segments instead of returning a summary. *)
Theorem run_pipeline_no_highlights
    (w : World.t) (config : HighlightConfig.t) (fx : Ffmpeg.t)
    (seg_work_dir : string) (mappings : list ChunkMapping.t)
    (total_duration : Q) :
  (forall video segments output crossfade,
     World.build_highlight_video w video segments output crossfade =
     snd (build_highlight_video fx video segments output seg_work_dir
            crossfade)) ->
  String.eqb (HighlightConfig.video_path config) "" = false ->
  World.is_file w (HighlightConfig.video_path config) = true ->
  String.eqb (HighlightConfig.gemini_api_key config) "" &&
    String.eqb (World.environ_GEMINI_API_KEY w) "" = false ->
  build_chunk_mappings w (HighlightConfig.video_path config)
    (World.path_join w
       (World.path_join w (HighlightConfig.output_dir config) "chunks")
       (HighlightConfig.output_basename config))
    (HighlightConfig.chunk_duration_sec config)
    (HighlightConfig.chunk_overlap_sec config)
    = Ok (mappings, total_duration) ->
  Forall (fun m => exists raw,
            World.analyze_chunk_with_gemini w (ChunkMapping.chunk_file_path m)
              (HighlightConfig.gemini_model config)
              (HighlightConfig.gemini_api_key config) = Ok raw /\
            contains "NONE" (upper raw) = true) mappings ->
  run_pipeline w config = Raise ValueError.
Proof.
  intros Hasm Hpath Hfile Hkey Htile Hnone.
  unfold run_pipeline. rewrite Hpath, Hfile, Hkey, Htile. simpl.
  rewrite (analyze_chunks_nothing w config mappings Hnone). simpl.
  rewrite Hasm. reflexivity.
Qed.

Lemma run_pipeline_no_highlights_witness :
  run_pipeline (assembling_world "none") (HighlightConfig.default "match.mp4" "")
    = Raise ValueError.
Proof.
  apply (run_pipeline_no_highlights (assembling_world "none")
           (HighlightConfig.default "match.mp4" "") (studio (-1) 30)
           "highlight_segments"
           [ChunkMapping.mk 0 90 0 90 0
              "output/chunks/highlights/chunk_0000_00m00s_01m30s.mp4";
            ChunkMapping.mk 82 100 0 18 1
              "output/chunks/highlights/chunk_0001_01m22s_01m40s.mp4"]
           100).
  - reflexivity.
  - reflexivity.
  - reflexivity.
  - reflexivity.
  - vm_compute. reflexivity.
  - repeat constructor; exists "none"%string; split; reflexivity.
Defined.
